(** * Event service: idempotency store, background worker and submission flow

    A shallow embedding of the Go packages [model], [store], [worker] and of
    [app.handleEvents].

    - Events live on a heap and are handled through pointers, as in the
      source ([*model.Event]): the store's table, the worker's queue and the
      slice returned by [List] all hold pointers to the same objects.
    - Dereferencing a pointer that is not allocated is a run-time panic,
      modelled by [None].
    - Every method of [Store] runs under the store's mutex and every channel
      operation is atomic, so each of them is one atomic action; concurrent
      goroutines are interleavings of these actions ([step], [run]). *)

From stdpp Require Import gmap strings list fin_maps.
From Stdlib Require Strings.Byte.

(** ** package model *)

Module model.

(** [type EventStatus string] with its two declared constants. *)
Definition EventStatus : Type := string.
Definition StatusAccepted : EventStatus := "accepted".
Definition StatusProcessed : EventStatus := "processed".

(** [type Event struct]; [json.RawMessage] is a byte slice. *)
Record Event : Type := mkEvent {
  EventID : string;
  Payload : list Byte.byte;
  Status : EventStatus;
}.

(** [type EventRequest struct], the decoded body of POST /events. *)
Record EventRequest : Type := mkEventRequest {
  req_EventID : string;
  req_Payload : list Byte.byte;
}.

(** [type EventResponse struct], an element of the answer to GET /events. *)
Record EventResponse : Type := mkEventResponse {
  resp_EventID : string;
  resp_Payload : list Byte.byte;
  resp_Status : EventStatus;
}.

(** [type ReadyResponse struct], the answer to GET /ready. *)
Record ReadyResponse : Type := mkReadyResponse {
  ready_Status : string;
  Ready : bool;
}.

(** The assignment [event.Status = s] on an event object. *)
Definition set_Status (s : EventStatus) (e : Event) : Event :=
  {| EventID := EventID e; Payload := Payload e; Status := s |}.

End model.
Import model.

(** ** The heap of event objects *)

Abbreviation ptr := nat (only parsing).
Abbreviation heap := (list Event) (only parsing).

(** [&model.Event{...}]: a fresh object at the end of the heap. *)
Definition alloc (h : heap) (e : Event) : ptr * heap := (length h, h ++ [e]).

(** ** package store *)

Module store.

(** [type Store struct { mu sync.RWMutex; events map[string]*model.Event }].
    The mutex is what makes each method below one atomic action. *)
Record Store : Type := mkStore { events : gmap string ptr }.

Definition New : Store := {| events := ∅ |}.

(** [_, exists := s.events[eventID]; return exists] *)
Definition Exists (s : Store) (eventID : string) : bool :=
  match events s !! eventID with
  | Some _ => true
  | None => false
  end.

(** [s.events[event.EventID] = event]: unconditional insert or overwrite. *)
Definition Save (h : heap) (s : Store) (event : ptr) : option Store :=
  e ← h !! event;
  Some {| events := <[EventID e := event]> (events s) |}.

(** [if event, exists := s.events[eventID]; exists { event.Status = StatusProcessed }]
    The table is untouched; the object the table points to is updated. *)
Definition MarkProcessed (h : heap) (s : Store) (eventID : string) : option heap :=
  match events s !! eventID with
  | Some event =>
      e ← h !! event;
      Some (<[event := set_Status StatusProcessed e]> h)
  | None => Some h
  end.

(** [GetStatus]: the status and [true], or the empty string and [false]. *)
Definition GetStatus (h : heap) (s : Store) (eventID : string)
  : option (EventStatus * bool) :=
  match events s !! eventID with
  | Some event =>
      e ← h !! event;
      Some (Status e, true)
  | None => Some (EmptyString, false)
  end.

(** [List]: a new slice with the table's pointers.  Go ranges over a map in
    an unspecified order: [List] is one such order, [ListReturns] is the
    set of all slices a call may return. *)
Definition List (s : Store) : list ptr := (map_to_list (events s)).*2.


End store.

(** ** package worker *)

(** [type Worker struct]: [queue] is the content of the buffered channel,
    oldest first; [done] tells whether the [done] channel is closed.  The
    [store] field points to the single store of the process, held in
    [Shared]; [processingDelay] only sets how long [time.Sleep] lasts and has
    no effect on the state. *)
Record Worker : Type := mkWorker {
  queue : list ptr;
  running : bool;
  done : bool;
}.

(** The state shared by all goroutines: the heap, the store and the worker. *)
Record Shared : Type := mkShared {
  mem : heap;
  st : store.Store;
  wk : Worker;
}.

Definition with_mem (h : heap) (σ : Shared) : Shared :=
  {| mem := h; st := st σ; wk := wk σ |}.
Definition with_st (s : store.Store) (σ : Shared) : Shared :=
  {| mem := mem σ; st := s; wk := wk σ |}.
Definition with_wk (w : Worker) (σ : Shared) : Shared :=
  {| mem := mem σ; st := st σ; wk := w |}.

Module worker.

(** [make(chan *model.Event, 100)] *)
Definition capacity : nat := 100.

Definition New : Worker := {| queue := []; running := false; done := false |}.

(** [w.queue <- event]: [None] when the channel is full and the sender
    has to wait. *)
Definition Enqueue (w : Worker) (event : ptr) : option Worker :=
  if decide (length (queue w) < capacity)
  then Some {| queue := queue w ++ [event]; running := running w; done := done w |}
  else None.

(** [event := <-w.queue]: [None] when the channel is empty and the
    receiver has to wait. *)
Definition receive (w : Worker) : option (ptr * Worker) :=
  match queue w with
  | event :: q => Some (event, {| queue := q; running := running w; done := done w |})
  | [] => None
  end.

Definition IsRunning (w : Worker) : bool := running w.

(** [w.running = b] *)
Definition set_running (b : bool) (w : Worker) : Worker :=
  {| queue := queue w; running := b; done := done w |}.

(** [close(w.done)] *)
Definition close_done (w : Worker) : Worker :=
  {| queue := queue w; running := running w; done := true |}.

(** [processEvent]: log, sleep, then [w.store.MarkProcessed(event.EventID)]. *)
Definition processEvent (σ : Shared) (event : ptr) : option Shared :=
  e ← mem σ !! event;
  h ← store.MarkProcessed (mem σ) (st σ) (EventID e);
  Some (with_mem h σ).

End worker.

(** ** package app *)

Module app.

(** [app.New]: an empty store and a worker that is not started. *)
Definition New : Shared := {| mem := []; st := store.New; wk := worker.New |}.

Definition StatusAccepted : nat := 202.
Definition StatusBadRequest : nat := 400.
Definition StatusMethodNotAllowed : nat := 405.
Definition StatusConflict : nat := 409.

(** What [handleEvents] reads of the [*http.Request]: its method, and its
    body as [json.Decode] returns it, [None] when the body does not decode.
    A body without [event_id] decodes to a request with an empty id. *)
Inductive method : Type := MethodGet | MethodPost | MethodOther.

Record Request : Type := mkRequest {
  Method : method;
  Body : option EventRequest;
}.

Definition POST (req : EventRequest) : Request :=
  {| Method := MethodPost; Body := Some req |}.

(** How a call of the handler ends: a response with an HTTP status, the
    list of events (status 200), a wait on the full queue, or a panic. *)
Inductive Outcome : Type :=
  | Responded (code : nat)
  | Listed (response : list EventResponse)
  | Blocked
  | Panicked.

(** [event := &model.Event{EventID: req.EventID, Payload: req.Payload,
    Status: model.StatusAccepted}] *)
Definition new_event (req : EventRequest) : Event :=
  {| EventID := req_EventID req; Payload := req_Payload req;
     Status := model.StatusAccepted |}.

(** [model.EventResponse{EventID: event.EventID, Payload: event.Payload,
    Status: event.Status}], read through the pointer. *)
Definition response_of (h : heap) (event : ptr) : option EventResponse :=
  e ← h !! event;
  Some {| resp_EventID := EventID e; resp_Payload := Payload e;
          resp_Status := Status e |}.

(** [handleEvents] run without interference.  GET lists the events; any
    method but POST is refused; a POST whose body decodes goes through the
    empty-id check, [Exists], allocation and [Save], [Enqueue], response. *)
Definition handleEvents (r : Request) (σ : Shared) : Outcome * Shared :=
  match Method r with
  | MethodGet =>
      let events := store.List (st σ) in
      match mapM (response_of (mem σ)) events with
      | Some response => (Listed response, σ)
      | None => (Panicked, σ)
      end
  | MethodOther => (Responded StatusMethodNotAllowed, σ)
  | MethodPost =>
      match Body r with
      | None => (Responded StatusBadRequest, σ)
      | Some req =>
          if decide (req_EventID req = EmptyString)
          then (Responded StatusBadRequest, σ)
          else if store.Exists (st σ) (req_EventID req)
          then (Responded StatusConflict, σ)
          else
            let '(event, h) := alloc (mem σ) (new_event req) in
            match store.Save h (st σ) event with
            | None => (Panicked, with_mem h σ)
            | Some s =>
                let σ1 := with_st s (with_mem h σ) in
                match worker.Enqueue (wk σ1) event with
                | None => (Blocked, σ1)
                | Some w => (Responded StatusAccepted, with_wk w σ1)
                end
            end
      end
  end.

(** [handleReady]: [a.worker.IsRunning()] *)
Definition IsReady (σ : Shared) : bool := worker.IsRunning (wk σ).

Definition StatusOK : nat := 200.
Definition StatusServiceUnavailable : nat := 503.

(** What [handleReady] writes after the status: the JSON encoding of a
    [ReadyResponse], or the message that [http.Error] writes as plain text
    (followed by a newline). *)
Inductive ReadyBody : Type :=
  | ReadyJSON (resp : ReadyResponse)
  | ErrorText (message : string).

(** [handleReady]: the status and the body written; any method but GET is
    refused through [http.Error]. *)
Definition handleReady (m : method) (σ : Shared) : nat * ReadyBody :=
  match m with
  | MethodGet =>
      if negb (worker.IsRunning (wk σ))
      then (StatusServiceUnavailable,
            ReadyJSON {| ready_Status := "not ready"; Ready := false |})
      else (StatusOK, ReadyJSON {| ready_Status := "ready"; Ready := true |})
  | _ => (StatusMethodNotAllowed, ErrorText "Method not allowed")
  end.

(** [type Config struct] *)
Record Config : Type := mkConfig {
  Port : string;
  Env : string;
  ProcessingDelayMs : Z;
}.

(** [os.Getenv]: the value of the variable, empty when it is not set. *)
Definition Getenv (env : gmap string string) (key : string) : string :=
  default EmptyString (env !! key).

(** [getEnv] *)
Definition getEnv (env : gmap string string) (key defaultValue : string) : string :=
  let value := Getenv env key in
  if decide (value = EmptyString) then defaultValue else value.

(** [getEnvAsInt]; [Atoi] stands for [strconv.Atoi] of Go's library, [None]
    being its error. *)
Definition getEnvAsInt (Atoi : string → option Z) (env : gmap string string)
    (key : string) (defaultValue : Z) : Z :=
  let valueStr := Getenv env key in
  if decide (valueStr = EmptyString) then defaultValue
  else
    match Atoi valueStr with
    | None => defaultValue
    | Some value => value
    end.

(** [LoadConfig] *)
Definition LoadConfig (Atoi : string → option Z) (env : gmap string string) : Config :=
  let port := getEnv env "PORT" "8080" in
  let env' := getEnv env "ENV" "dev" in
  let processingDelayMs := getEnvAsInt Atoi env "PROCESSING_DELAY_MS" 1000 in
  {| Port := port; Env := env'; ProcessingDelayMs := processingDelayMs |}.

End app.

(** Requests served one after the other, each handler returning before the
    next request is read. *)
Fixpoint serve (rs : list app.Request) (σ : Shared) : list app.Outcome * Shared :=
  match rs with
  | [] => ([], σ)
  | r :: rs' =>
      let '(o, σ1) := app.handleEvents r σ in
      let '(os, σ2) := serve rs' σ1 in
      (o :: os, σ2)
  end.

(** ** Goroutines and their interleavings *)

(** Where a handler of POST /events stands, from the decoded body on.
    Between two of these points the handler performs one atomic action on
    the shared state. *)
Inductive handler_pc : Type :=
  | HStart (req : EventRequest)   (* body decoded, nothing checked yet *)
  | HSave (req : EventRequest)    (* [Exists] returned false *)
  | HEnqueue (event : ptr)        (* [Save] returned *)
  | HDone (code : nat).           (* status written *)

(** The goroutine spawned by [Worker.Start]. *)
Inductive loop_pc : Type :=
  | LoopIdle                      (* [Start] not called yet *)
  | LoopSelect                    (* at the [select] *)
  | LoopWork (event : ptr)        (* in [processEvent], before [MarkProcessed] *)
  | LoopExit.                     (* returned *)

(** The caller of [Worker.Stop]. *)
Inductive stop_pc : Type :=
  | StopIdle                      (* [Stop] not called yet *)
  | StopLen                       (* at the test [len(w.queue) > 0] *)
  | StopRecv                      (* at [event := <-w.queue] *)
  | StopWork (event : ptr)        (* in [processEvent], before [MarkProcessed] *)
  | StopReturned.

Record Machine : Type := mkMachine {
  shared : Shared;
  loop : loop_pc;
  stopper : stop_pc;
  handlers : list handler_pc;
}.

(** Which goroutine moves next.  At its [select] the loop may take either
    ready case, as Go leaves the choice open. *)
Inductive label : Type :=
  | Arrive (req : EventRequest)   (* a new POST /events request is decoded *)
  | Handler (i : nat)             (* handler [i] performs its next action *)
  | StartWorker                   (* [Worker.Start] *)
  | LoopRecv                      (* [case event := <-w.queue] *)
  | LoopProcess                   (* the loop's [MarkProcessed] *)
  | LoopDone                      (* [case <-w.done] *)
  | StopWorker.                   (* the caller of [Stop] performs its next action *)

Definition handler_step (pc : handler_pc) (σ : Shared) : option (handler_pc * Shared) :=
  match pc with
  | HStart req =>
      if decide (req_EventID req = EmptyString) then Some (HDone app.StatusBadRequest, σ)
      else if store.Exists (st σ) (req_EventID req) then Some (HDone app.StatusConflict, σ)
      else Some (HSave req, σ)
  | HSave req =>
      let '(event, h) := alloc (mem σ) (app.new_event req) in
      s ← store.Save h (st σ) event;
      Some (HEnqueue event, with_st s (with_mem h σ))
  | HEnqueue event =>
      w ← worker.Enqueue (wk σ) event;
      Some (HDone app.StatusAccepted, with_wk w σ)
  | HDone _ => None
  end.

Definition loop_step (l : label) (pc : loop_pc) (σ : Shared) : option (loop_pc * Shared) :=
  match l, pc with
  | StartWorker, LoopIdle =>
      Some (LoopSelect, with_wk (worker.set_running true (wk σ)) σ)
  | LoopRecv, LoopSelect =>
      '(event, w) ← worker.receive (wk σ);
      Some (LoopWork event, with_wk w σ)
  | LoopDone, LoopSelect =>
      if done (wk σ)
      then Some (LoopExit, with_wk (worker.set_running false (wk σ)) σ)
      else None
  | LoopProcess, LoopWork event =>
      σ' ← worker.processEvent σ event;
      Some (LoopSelect, σ')
  | _, _ => None
  end.

Definition stop_step (pc : stop_pc) (σ : Shared) : option (stop_pc * Shared) :=
  match pc with
  | StopIdle => Some (StopLen, with_wk (worker.close_done (wk σ)) σ)
  | StopLen =>
      if decide (0 < length (queue (wk σ))) then Some (StopRecv, σ)
      else Some (StopReturned, σ)
  | StopRecv =>
      '(event, w) ← worker.receive (wk σ);
      Some (StopWork event, with_wk w σ)
  | StopWork event =>
      σ' ← worker.processEvent σ event;
      Some (StopLen, σ')
  | StopReturned => None
  end.

(** One step of the whole process; [None] when the chosen goroutine cannot
    move (it has finished, it waits on a channel, or it does not exist). *)
Definition step (l : label) (m : Machine) : option Machine :=
  match l with
  | Arrive req =>
      Some {| shared := shared m; loop := loop m; stopper := stopper m;
              handlers := handlers m ++ [HStart req] |}
  | Handler i =>
      pc ← handlers m !! i;
      '(pc', σ') ← handler_step pc (shared m);
      Some {| shared := σ'; loop := loop m; stopper := stopper m;
              handlers := <[i := pc']> (handlers m) |}
  | StopWorker =>
      '(pc', σ') ← stop_step (stopper m) (shared m);
      Some {| shared := σ'; loop := loop m; stopper := pc';
              handlers := handlers m |}
  | _ =>
      '(pc', σ') ← loop_step l (loop m) (shared m);
      Some {| shared := σ'; loop := pc'; stopper := stopper m;
              handlers := handlers m |}
  end.

Fixpoint run (sched : list label) (m : Machine) : option Machine :=
  match sched with
  | [] => Some m
  | l :: sched' => m' ← step l m; run sched' m'
  end.

(** The process after [app.New]. *)
Definition boot : Machine :=
  {| shared := app.New; loop := LoopIdle; stopper := StopIdle; handlers := [] |}.

Definition reachable (m : Machine) : Prop := ∃ sched, run sched boot = Some m.

(** What a client reads: the status of a key, and the list as seen through
    the pointers [List] returned. *)
Definition status_of (m : Machine) (eventID : string) : option (EventStatus * bool) :=
  store.GetStatus (mem (shared m)) (st (shared m)) eventID.


(** ** Sample requests *)

Definition evt_001 : EventRequest :=
  {| req_EventID := "evt_001"; req_Payload := [Byte.x7b; Byte.x7d] |}.

(** The same identifier with the payload [[1]]. *)
Definition evt_001_again : EventRequest :=
  {| req_EventID := "evt_001"; req_Payload := [Byte.x5b; Byte.x31; Byte.x5d] |}.

(** [n] submissions with distinct keys, each handler running to its end
    before the next request arrives. *)
Fixpoint key (n : nat) : string :=
  match n with
  | 0 => "k"
  | S n' => "x" +:+ key n'
  end.

Definition submit_all (n : nat) : list label :=
  flat_map (λ i, [Arrive {| req_EventID := key i; req_Payload := [] |};
                  Handler i; Handler i; Handler i]) (seq 0 n).






(** ** Core operations run one after the other *)

(** The operations of the store and the submission flow, as a client that
    issues them one at a time sees them. *)
Inductive core_op : Type :=
  | OpSubmit (req : EventRequest)
  | OpMarkProcessed (eventID : string)
  | OpGetStatus (eventID : string)
  | OpList.

(** The state an operation leaves; [None] if it panics. *)
Definition exec_op (o : core_op) (σ : Shared) : option Shared :=
  match o with
  | OpSubmit req =>
      match app.handleEvents (app.POST req) σ with
      | (app.Panicked, _) => None
      | (_, σ') => Some σ'
      end
  | OpMarkProcessed eventID =>
      h ← store.MarkProcessed (mem σ) (st σ) eventID;
      Some (with_mem h σ)
  | OpGetStatus eventID =>
      _ ← store.GetStatus (mem σ) (st σ) eventID;
      Some σ
  | OpList => Some σ
  end.

Fixpoint exec_ops (ops : list core_op) (σ : Shared) : option Shared :=
  match ops with
  | [] => Some σ
  | o :: ops' => σ' ← exec_op o σ; exec_ops ops' σ'
  end.

(** The record stored under a key: the object its table entry points to. *)
Definition record_of (σ : Shared) (eventID : string) : option Event :=
  event ← store.events (st σ) !! eventID;
  mem σ !! event.

(** ** Invariants *)

(** A heap may grow, and an object may only have its status set to
    [processed]: identifier and payload of an allocated object are fixed. *)
Definition heap_le (h h' : heap) : Prop :=
  ∀ p e, h !! p = Some e →
    ∃ e', h' !! p = Some e' ∧ EventID e' = EventID e ∧ Payload e' = Payload e ∧
          (Status e' = Status e ∨ Status e' = StatusProcessed).

(** Every pointer in the table is allocated: nothing else can be stored in
    a Go map of pointers whose only writer is [Save]. *)
Definition live (h : heap) (s : store.Store) : Prop :=
  ∀ k p, store.events s !! k = Some p → is_Some (h !! p).

(** A pointer handed to the worker: allocated, and its key is in the table. *)
Definition handed (σ : Shared) (event : ptr) : Prop :=
  ∃ e, mem σ !! event = Some e ∧ is_Some (store.events (st σ) !! EventID e).

Record ok (σ : Shared) : Prop := mk_ok {
  ok_table : ∀ k p, store.events (st σ) !! k = Some p →
               ∃ e, mem σ !! p = Some e ∧ EventID e = k;
  ok_nonempty : store.events (st σ) !! EmptyString = None;
  ok_status : ∀ p e, mem σ !! p = Some e →
                Status e = StatusAccepted ∨ Status e = StatusProcessed;
  ok_queue : ∀ p, p ∈ queue (wk σ) → handed σ p;
}.

Definition handler_ok (σ : Shared) (pc : handler_pc) : Prop :=
  match pc with
  | HSave req => req_EventID req ≠ EmptyString
  | HEnqueue event => handed σ event
  | _ => True
  end.

Definition loop_ok (σ : Shared) (pc : loop_pc) : Prop :=
  match pc with
  | LoopWork event => handed σ event
  | _ => True
  end.

Definition stop_ok (σ : Shared) (pc : stop_pc) : Prop :=
  match pc with
  | StopWork event => handed σ event
  | _ => True
  end.

(** The flag [running] is written by [Start] and by the loop only, so it
    tells where the loop is; the loop can only leave once [done] is closed,
    which only [Stop] does. *)
Definition flag_ok (m : Machine) : Prop :=
  running (wk (shared m)) =
    match loop m with
    | LoopIdle | LoopExit => false
    | LoopSelect | LoopWork _ => true
    end
  ∧ (loop m = LoopExit → done (wk (shared m)) = true)
  ∧ (done (wk (shared m)) = true ↔ stopper m ≠ StopIdle).

Record Inv (m : Machine) : Prop := mk_Inv {
  Inv_shared : ok (shared m);
  Inv_loop : loop_ok (shared m) (loop m);
  Inv_stop : stop_ok (shared m) (stopper m);
  Inv_handlers : Forall (handler_ok (shared m)) (handlers m);
  Inv_flag : flag_ok m;
}.

(** One atomic action never removes a key and never changes an object
    except for its status. *)
Definition grows (σ σ' : Shared) : Prop :=
  heap_le (mem σ) (mem σ') ∧
  ∀ k, is_Some (store.events (st σ) !! k) → is_Some (store.events (st σ') !! k).

(** * Proofs *)

(** ** The heap only grows *)

Lemma heap_le_refl (h : heap) : heap_le h h.
Proof. intros p e Hp. exists e. auto. Qed.

Lemma heap_le_trans (h1 h2 h3 : heap) :
  heap_le h1 h2 → heap_le h2 h3 → heap_le h1 h3.
Proof.
  intros H12 H23 p e Hp.
  destruct (H12 p e Hp) as (e2 & Hp2 & Hid2 & Hpl2 & Hst2).
  destruct (H23 p e2 Hp2) as (e3 & Hp3 & Hid3 & Hpl3 & Hst3).
  exists e3. repeat split; [done | congruence | congruence |].
  destruct Hst3 as [Hst3 | ->]; [| by right].
  rewrite Hst3. exact Hst2.
Qed.

Lemma heap_le_alloc (h : heap) (e : Event) : heap_le h (h ++ [e]).
Proof.
  intros p e0 Hp. exists e0.
  split; [by apply lookup_app_l_Some | auto].
Qed.

Lemma alloc_fresh (h : heap) (e : Event) : (h ++ [e]) !! length h = Some e.
Proof. by apply list_lookup_middle. Qed.

Lemma lookup_set_Status (h : heap) (p q : ptr) (e e' : Event) (s : EventStatus) :
  h !! p = Some e →
  <[p := set_Status s e]> h !! q = Some e' →
  (q = p ∧ e' = set_Status s e) ∨ (q ≠ p ∧ h !! q = Some e').
Proof.
  intros Hp Hq. apply list_lookup_insert_Some in Hq.
  destruct Hq as [(-> & <- & _) | (Hne & Hq)]; [by left | right; auto].
Qed.

Lemma heap_le_set_processed (h : heap) (p : ptr) (e : Event) :
  h !! p = Some e → heap_le h (<[p := set_Status StatusProcessed e]> h).
Proof.
  intros Hp q e0 Hq. destruct (decide (p = q)) as [<- | Hne].
  - assert (e0 = e) as -> by congruence.
    exists (set_Status StatusProcessed e).
    rewrite list_lookup_insert_eq by eauto using lookup_lt_Some. auto.
  - exists e0. rewrite list_lookup_insert_ne by done. auto.
Qed.

Lemma MarkProcessed_heap_le (h h' : heap) (s : store.Store) (k : string) :
  store.MarkProcessed h s k = Some h' → heap_le h h'.
Proof.
  unfold store.MarkProcessed. intros H.
  destruct (store.events s !! k) as [p |]; simplify_option_eq.
  - by apply heap_le_set_processed.
  - apply heap_le_refl.
Qed.

Lemma grows_refl (σ : Shared) : grows σ σ.
Proof. split; [apply heap_le_refl | auto]. Qed.

Lemma grows_same (σ σ' : Shared) : mem σ' = mem σ → st σ' = st σ → grows σ σ'.
Proof. intros Hm Hs. unfold grows. rewrite Hm, Hs. apply grows_refl. Qed.

Lemma grows_trans (σ1 σ2 σ3 : Shared) : grows σ1 σ2 → grows σ2 σ3 → grows σ1 σ3.
Proof.
  intros [Hh12 Hk12] [Hh23 Hk23]. split; [by eapply heap_le_trans | auto].
Qed.

Lemma handed_grows (σ σ' : Shared) (p : ptr) : grows σ σ' → handed σ p → handed σ' p.
Proof.
  intros [Hh Hk] (e & Hp & Hkey).
  destruct (Hh p e Hp) as (e' & Hp' & Hid & _).
  exists e'. split; [done |]. rewrite Hid. by apply Hk.
Qed.

(** ** Each atomic action keeps the invariant *)

Lemma ok_New : ok app.New.
Proof.
  split; simpl.
  - intros k p H. by rewrite lookup_empty in H.
  - apply lookup_empty.
  - intros p e H. by rewrite lookup_nil in H.
  - intros p H. by apply elem_of_nil in H.
Qed.

Lemma ok_with_wk (σ : Shared) (w : Worker) :
  ok σ → (∀ p, p ∈ queue w → p ∈ queue (wk σ)) → ok (with_wk w σ).
Proof.
  intros [Ht Hn Hs Hq] Hsub. split; simpl; auto.
  intros p Hp. destruct (Hq p (Hsub p Hp)) as (e & He & Hk). by exists e.
Qed.

Lemma ok_MarkProcessed (σ : Shared) (k : string) (h : heap) :
  ok σ → store.MarkProcessed (mem σ) (st σ) k = Some h →
  ok (with_mem h σ) ∧ grows σ (with_mem h σ).
Proof.
  intros Hok HM.
  assert (grows σ (with_mem h σ)) as Hg.
  { split; [by eapply MarkProcessed_heap_le | auto]. }
  split; [| done].
  destruct Hok as [Ht Hn Hs Hq]. split; simpl; auto.
  - intros k' p Hk'. destruct (Ht k' p Hk') as (e & He & Hid).
    destruct (proj1 Hg p e He) as (e' & He' & Hid' & _).
    exists e'. split; [done | congruence].
  - intros p e He. unfold store.MarkProcessed in HM.
    destruct (store.events (st σ) !! k) as [p0 |]; simplify_option_eq; [| eauto].
    match goal with H : mem σ !! p0 = Some _ |- _ =>
      destruct (lookup_set_Status _ _ _ _ _ _ H He) as [[-> ->] | [_ He']] end.
    + by right.
    + eauto.
  - intros p Hp. eapply handed_grows; [exact Hg | auto].
Qed.

Lemma MarkProcessed_total (σ : Shared) (k : string) :
  ok σ → is_Some (store.MarkProcessed (mem σ) (st σ) k).
Proof.
  intros Hok. unfold store.MarkProcessed.
  destruct (store.events (st σ) !! k) as [p |] eqn:Hk; [| eauto].
  destruct (ok_table _ Hok k p Hk) as (e & -> & _). simpl. eauto.
Qed.

Lemma ok_processEvent (σ σ' : Shared) (p : ptr) :
  ok σ → worker.processEvent σ p = Some σ' → ok σ' ∧ grows σ σ'.
Proof.
  unfold worker.processEvent. intros Hok H.
  destruct (mem σ !! p) as [e |]; [| done]. simpl in H.
  destruct (store.MarkProcessed (mem σ) (st σ) (EventID e)) as [h |] eqn:HM; [| done].
  simpl in H. injection H as <-. by apply ok_MarkProcessed with (k := EventID e).
Qed.

Lemma processEvent_total (σ : Shared) (p : ptr) :
  ok σ → handed σ p → is_Some (worker.processEvent σ p).
Proof.
  intros Hok (e & He & _). unfold worker.processEvent. rewrite He. simpl.
  destruct (MarkProcessed_total σ (EventID e) Hok) as [h ->]. simpl. eauto.
Qed.

(** Allocation followed by [Save], for a key that is not empty. *)
Lemma ok_alloc_Save (σ : Shared) (req : EventRequest) :
  ok σ → req_EventID req ≠ EmptyString →
  let p := length (mem σ) in
  let h := mem σ ++ [app.new_event req] in
  let s := {| store.events := <[req_EventID req := p]> (store.events (st σ)) |} in
  store.Save h (st σ) p = Some s ∧
  ok (with_st s (with_mem h σ)) ∧
  grows σ (with_st s (with_mem h σ)) ∧
  handed (with_st s (with_mem h σ)) p.
Proof.
  intros [Ht Hn Hs Hq] Hne p h s.
  assert (h !! p = Some (app.new_event req)) as Hnew.
  { apply alloc_fresh. }
  assert (grows σ (with_st s (with_mem h σ))) as Hg.
  { split; simpl.
    - apply heap_le_alloc.
    - intros k Hk. subst s. simpl. rewrite lookup_insert.
      case_decide; eauto. }
  split; [| split; [| split]]; [| | done |].
  - unfold store.Save. rewrite Hnew. done.
  - split; simpl.
    + intros k q. rewrite lookup_insert. case_decide as Hk.
      * intros [= <-]. exists (app.new_event req). split; [done | by rewrite <- Hk].
      * intros Hq'. destruct (Ht k q Hq') as (e & He & Hid).
        exists e. split; [by apply lookup_app_l_Some | done].
    + rewrite lookup_insert_ne by done. done.
    + intros q e He. subst h. apply lookup_snoc_Some in He.
      destruct He as [[_ He] | [_ <-]]; [eauto | by left].
    + intros q Hq'. eapply handed_grows; [exact Hg | auto].
  - exists (app.new_event req). split; [done |]. simpl.
    rewrite lookup_insert_eq. eauto.
Qed.

Lemma ok_Enqueue (σ : Shared) (p : ptr) (w : Worker) :
  ok σ → handed σ p → worker.Enqueue (wk σ) p = Some w → ok (with_wk w σ).
Proof.
  intros [Ht Hn Hs Hq] Hp. unfold worker.Enqueue. case_decide; [| done].
  intros [= <-]. split; simpl; auto.
  intros q. rewrite elem_of_app, list_elem_of_singleton.
  intros [Hin | ->]; [by apply Hq | done].
Qed.

Lemma ok_receive (σ : Shared) (p : ptr) (w : Worker) :
  ok σ → worker.receive (wk σ) = Some (p, w) →
  ok (with_wk w σ) ∧ handed σ p ∧ queue (wk σ) = p :: queue w.
Proof.
  intros Hok. unfold worker.receive.
  destruct (queue (wk σ)) as [| p0 q] eqn:Hqueue; [done |].
  intros [= <- <-]. split; [| split; [| done]].
  - apply ok_with_wk; [done |]. simpl. intros p Hp. rewrite Hqueue. by right.
  - apply (ok_queue _ Hok). rewrite Hqueue. by left.
Qed.

(** ** Each goroutine keeps the invariant *)

Lemma handler_step_ok (σ σ' : Shared) (pc pc' : handler_pc) :
  ok σ → handler_ok σ pc → handler_step pc σ = Some (pc', σ') →
  ok σ' ∧ grows σ σ' ∧ handler_ok σ' pc' ∧
  running (wk σ') = running (wk σ) ∧ done (wk σ') = done (wk σ).
Proof.
  intros Hok Hpc Hstep. destruct pc as [req | req | event | code]; simpl in *.
  - case_decide as Hid.
    { injection Hstep as <- <-. auto using grows_refl. }
    destruct (store.Exists (st σ) (req_EventID req));
      injection Hstep as <- <-; simpl; auto using grows_refl.
  - destruct (ok_alloc_Save σ req Hok Hpc) as (HS & Hok' & Hg & Hh).
    rewrite HS in Hstep. simpl in Hstep. injection Hstep as <- <-. auto.
  - destruct (worker.Enqueue (wk σ) event) as [w |] eqn:HE; [| done].
    simpl in Hstep. injection Hstep as <- <-.
    split; [by eapply ok_Enqueue |]. split; [by apply grows_same |].
    unfold worker.Enqueue in HE. case_decide; [| done].
    injection HE as <-. simpl. auto.
  - done.
Qed.

Lemma loop_step_ok (l : label) (σ σ' : Shared) (pc pc' : loop_pc) :
  ok σ → loop_ok σ pc → loop_step l pc σ = Some (pc', σ') →
  ok σ' ∧ grows σ σ' ∧ loop_ok σ' pc' ∧ done (wk σ') = done (wk σ) ∧
  match pc' with
  | LoopExit => running (wk σ') = false ∧ done (wk σ) = true
  | LoopIdle => False
  | LoopSelect | LoopWork _ =>
      (pc = LoopIdle ∧ running (wk σ') = true) ∨
      (pc ≠ LoopIdle ∧ pc ≠ LoopExit ∧ running (wk σ') = running (wk σ))
  end.
Proof.
  intros Hok Hpc Hstep.
  destruct l; try done; destruct pc as [| | event |]; try done; simpl in *.
  - injection Hstep as <- <-. simpl.
    split; [by apply ok_with_wk |]. split; [by apply grows_same |]. auto.
  - destruct (worker.receive (wk σ)) as [[event w] |] eqn:HR; [| done].
    simpl in Hstep. injection Hstep as <- <-.
    destruct (ok_receive σ event w Hok HR) as (Hok' & Hh & Hq).
    split; [done |]. split; [by apply grows_same |]. split; [done |].
    unfold worker.receive in HR. destruct (queue (wk σ)); [done |].
    injection HR as <- <-. simpl. split; [done |]. right. auto.
  - destruct (worker.processEvent σ event) as [σ1 |] eqn:HP; [| done].
    simpl in Hstep. injection Hstep as <- <-.
    destruct (ok_processEvent σ σ1 event Hok HP) as [Hok' Hg].
    unfold worker.processEvent in HP. simplify_option_eq. simpl.
    split; [done |]. split; [done |]. split; [done |]. split; [done |].
    right. auto.
  - destruct (done (wk σ)) eqn:Hd; [| done].
    injection Hstep as <- <-. simpl.
    split; [by apply ok_with_wk |]. split; [by apply grows_same |]. auto.
Qed.

Lemma stop_step_ok (σ σ' : Shared) (pc pc' : stop_pc) :
  ok σ → stop_ok σ pc → stop_step pc σ = Some (pc', σ') →
  ok σ' ∧ grows σ σ' ∧ stop_ok σ' pc' ∧ running (wk σ') = running (wk σ) ∧
  pc' ≠ StopIdle ∧
  match pc with
  | StopIdle => done (wk σ') = true
  | _ => done (wk σ') = done (wk σ)
  end.
Proof.
  intros Hok Hpc Hstep. destruct pc as [| | | event |]; simpl in *.
  - injection Hstep as <- <-. simpl.
    split; [by apply ok_with_wk |]. split; [by apply grows_same |]. auto.
  - case_decide; injection Hstep as <- <-; auto 10 using grows_refl.
  - destruct (worker.receive (wk σ)) as [[event w] |] eqn:HR; [| done].
    simpl in Hstep. injection Hstep as <- <-.
    destruct (ok_receive σ event w Hok HR) as (Hok' & Hh & Hq).
    split; [done |]. split; [by apply grows_same |]. split; [done |].
    unfold worker.receive in HR. destruct (queue (wk σ)); [done |].
    injection HR as <- <-. simpl. auto.
  - destruct (worker.processEvent σ event) as [σ1 |] eqn:HP; [| done].
    simpl in Hstep. injection Hstep as <- <-.
    destruct (ok_processEvent σ σ1 event Hok HP) as [Hok' Hg].
    unfold worker.processEvent in HP. simplify_option_eq. simpl. auto 10.
  - done.
Qed.

Lemma Inv_boot : Inv boot.
Proof.
  split; simpl; auto using ok_New.
  split; [done |]. split; [done |]. split; [done | intros H; by destruct H].
Qed.

Lemma step_Inv (l : label) (m m' : Machine) :
  Inv m → step l m = Some m' → Inv m' ∧ grows (shared m) (shared m').
Proof.
  intros [Hok Hl Hs Hh (Hrun & Hexit & Hdone)] Hstep.
  assert (∀ pc' σ', loop_step l (loop m) (shared m) = Some (pc', σ') →
    Inv {| shared := σ'; loop := pc'; stopper := stopper m; handlers := handlers m |}
    ∧ grows (shared m) σ') as Hloop.
  { intros pc' σ' HL.
    destruct (loop_step_ok l _ _ _ _ Hok Hl HL) as (Hok' & Hg & Hl' & Hd & Hr).
    split; [| done]. split; simpl; auto.
    - destruct (stopper m); simpl in *; eauto using handed_grows.
    - eapply Forall_impl; [exact Hh |]. intros [] ?; simpl in *; eauto using handed_grows.
    - unfold flag_ok. simpl. rewrite Hd.
      destruct pc'; simpl in Hr; [done | | |].
      + split; [| split; [done | exact Hdone]].
        destruct Hr as [[_ ->] | (H1 & H2 & ->)]; [done |].
        rewrite Hrun. by destruct (loop m).
      + split; [| split; [done | exact Hdone]].
        destruct Hr as [[_ ->] | (H1 & H2 & ->)]; [done |].
        rewrite Hrun. by destruct (loop m).
      + destruct Hr as [-> Hd']. split; [done |]. split; [done | exact Hdone]. }
  destruct l as [req | i | | | | |]; unfold step in Hstep;
    try (destruct (loop_step _ (loop m) (shared m)) as [[pc' σ'] |] eqn:HL;
         [| done]; simpl in Hstep; injection Hstep as <-; by apply Hloop).
  - injection Hstep as <-. split; [| apply grows_refl].
    split; simpl; auto; [apply Forall_app; split; [done |] |].
    + by apply Forall_singleton.
    + by unfold flag_ok.
  - destruct (handlers m !! i) as [pc |] eqn:Hi; [| done]. simpl in Hstep.
    destruct (handler_step pc (shared m)) as [[pc' σ'] |] eqn:HH; [| done].
    simpl in Hstep. injection Hstep as <-.
    assert (handler_ok (shared m) pc) as Hpc.
    { eapply Forall_lookup_1; eauto. }
    destruct (handler_step_ok _ _ _ _ Hok Hpc HH) as (Hok' & Hg & Hpc' & Hr & Hd).
    split; [| done]. split; simpl; auto.
    + destruct (loop m); simpl in *; eauto using handed_grows.
    + destruct (stopper m); simpl in *; eauto using handed_grows.
    + apply Forall_insert; [| done].
      eapply Forall_impl; [exact Hh |]. intros [] ?; simpl in *; eauto using handed_grows.
    + unfold flag_ok. simpl. rewrite Hr, Hd. auto.
  - destruct (stop_step (stopper m) (shared m)) as [[pc' σ'] |] eqn:HS; [| done].
    simpl in Hstep. injection Hstep as <-.
    destruct (stop_step_ok _ _ _ _ Hok Hs HS) as (Hok' & Hg & Hs' & Hr & Hne & Hd).
    split; [| done]. split; simpl; auto.
    + destruct (loop m); simpl in *; eauto using handed_grows.
    + eapply Forall_impl; [exact Hh |]. intros [] ?; simpl in *; eauto using handed_grows.
    + unfold flag_ok. simpl. rewrite Hr. split; [done |].
      destruct (stopper m); rewrite Hd; split; try done; try tauto.
      all: split; [intros _; done | intros _; apply Hdone; done].
Qed.

(** ** Every reachable state satisfies the invariant *)


Lemma run_cons_Some (l : label) (sched : list label) (m m1 : Machine) :
  step l m = Some m1 → run (l :: sched) m = run sched m1.
Proof. intros H. simpl. by rewrite H. Qed.

Lemma run_Inv (sched : list label) (m m' : Machine) :
  Inv m → run sched m = Some m' → Inv m' ∧ grows (shared m) (shared m').
Proof.
  revert m. induction sched as [| l sched IH]; intros m HI Hrun; simpl in Hrun.
  - injection Hrun as <-. split; [done | apply grows_refl].
  - destruct (step l m) as [m1 |] eqn:Hstep; [| done]. simpl in Hrun.
    destruct (step_Inv l m m1 HI Hstep) as [HI1 Hg1].
    destruct (IH m1 HI1 Hrun) as [HI' Hg']. split; [done |].
    by eapply grows_trans.
Qed.

Lemma reachable_Inv (m : Machine) : reachable m → Inv m.
Proof. intros [sched Hrun]. by destruct (run_Inv sched boot m Inv_boot Hrun). Qed.


(** ** The store's point operations *)

(** The pointers in the table of a reachable state are allocated. *)
Lemma reachable_live (m : Machine) :
  reachable m → live (mem (shared m)) (st (shared m)).
Proof.
  intros Hreach k p Hk.
  destruct (ok_table _ (Inv_shared _ (reachable_Inv m Hreach)) k p Hk)
    as (e & -> & _).
  eauto.
Qed.

Lemma MarkProcessed_sets_processed (h : heap) (s : store.Store) (k : string)
    (p : ptr) (e : Event) :
  store.events s !! k = Some p → h !! p = Some e →
  store.MarkProcessed h s k = Some (<[p := set_Status StatusProcessed e]> h) ∧
  <[p := set_Status StatusProcessed e]> h !! p = Some (set_Status StatusProcessed e).
Proof.
  intros Hk Hp. unfold store.MarkProcessed. rewrite Hk, Hp. simpl.
  split; [done |]. apply list_lookup_insert_eq. by eapply lookup_lt_Some.
Qed.

(** C8. [MarkProcessed(key)] sets the status of the record stored under
    [key] to [processed], leaving every other field and object alone, when
    such a record exists; for an unknown key it returns without an error
    and without changing anything, and [GetStatus] of an unknown key
    answers [found = false] with no error. *)
Theorem MarkProcessed_known_or_unknown (h : heap) (s : store.Store) (k : string) :
  (∀ p e, store.events s !! k = Some p → h !! p = Some e →
     store.MarkProcessed h s k = Some (<[p := set_Status StatusProcessed e]> h) ∧
     store.GetStatus (<[p := set_Status StatusProcessed e]> h) s k
       = Some (StatusProcessed, true)) ∧
  (store.events s !! k = None →
     store.MarkProcessed h s k = Some h ∧
     store.GetStatus h s k = Some (EmptyString, false)).
Proof.
  split.
  - intros p e Hk Hp. unfold store.MarkProcessed, store.GetStatus.
    rewrite Hk, Hp. simpl. split; [done |].
    rewrite list_lookup_insert_eq by eauto using lookup_lt_Some. done.
  - intros Hk. unfold store.MarkProcessed, store.GetStatus. by rewrite Hk.
Qed.

Lemma MarkProcessed_known_or_unknown_witness :
  let e := {| EventID := "evt_001"; Payload := []; Status := StatusAccepted |} in
  let s := {| store.events := {[ "evt_001" := 0 ]} |} in
  (store.MarkProcessed [e] s "evt_001" = Some [set_Status StatusProcessed e] ∧
   store.GetStatus [set_Status StatusProcessed e] s "evt_001"
     = Some (StatusProcessed, true)) ∧
  (store.MarkProcessed [e] s "evt_404" = Some [e] ∧
   store.GetStatus [e] s "evt_404" = Some (EmptyString, false)).
Proof.
  intros e s. split.
  - apply (proj1 (MarkProcessed_known_or_unknown [e] s "evt_001") 0 e);
      reflexivity.
  - apply (proj2 (MarkProcessed_known_or_unknown [e] s "evt_404")).
    reflexivity.
Defined.

(** C10. [Exists(k)] is true exactly when [GetStatus(k)] answers
    [found = true]; and when [GetStatus] answers [found = false] the status
    it returns is the empty string, which is neither [accepted] nor
    [processed]. *)
Theorem Exists_iff_GetStatus_found (h : heap) (s : store.Store) (k : string) :
  live h s →
  ∃ status found,
    store.GetStatus h s k = Some (status, found) ∧
    (store.Exists s k = true ↔ found = true) ∧
    (found = false →
       status = EmptyString ∧ status ≠ StatusAccepted ∧ status ≠ StatusProcessed).
Proof.
  intros Hlive. unfold store.GetStatus, store.Exists.
  destruct (store.events s !! k) as [p |] eqn:Hk.
  - destruct (Hlive k p Hk) as [e ->]. simpl.
    exists (Status e), true. split; [done |]. split; [done | discriminate].
  - exists EmptyString, false. split; [done |]. split; [done |].
    intros _. split; [done |]. split; discriminate.
Qed.

Lemma Exists_iff_GetStatus_found_witness :
  let e := {| EventID := "evt_001"; Payload := []; Status := StatusAccepted |} in
  let s := {| store.events := {[ "evt_001" := 0 ]} |} in
  ∃ status found,
    store.GetStatus [e] s "evt_001" = Some (status, found) ∧
    (store.Exists s "evt_001" = true ↔ found = true) ∧
    (found = false →
       status = EmptyString ∧ status ≠ StatusAccepted ∧ status ≠ StatusProcessed).
Proof.
  intros e s. apply (Exists_iff_GetStatus_found [e] s "evt_001").
  intros k p Hk. simpl in Hk. apply lookup_singleton_Some in Hk as [_ <-].
  by exists e.
Defined.

(** ** The POST branch of the handler *)

Lemma handleEvents_POST (req : EventRequest) (σ : Shared) :
  app.handleEvents (app.POST req) σ =
    if decide (req_EventID req = EmptyString)
    then (app.Responded app.StatusBadRequest, σ)
    else if store.Exists (st σ) (req_EventID req)
    then (app.Responded app.StatusConflict, σ)
    else
      match store.Save (mem σ ++ [app.new_event req]) (st σ) (length (mem σ)) with
      | None => (app.Panicked, with_mem (mem σ ++ [app.new_event req]) σ)
      | Some s =>
          let σ1 := with_st s (with_mem (mem σ ++ [app.new_event req]) σ) in
          match worker.Enqueue (wk σ) (length (mem σ)) with
          | None => (app.Blocked, σ1)
          | Some w => (app.Responded app.StatusAccepted, with_wk w σ1)
          end
      end.
Proof. reflexivity. Qed.

(** ** Rejected submissions *)

(** C6. A submission with an empty event identifier is answered at once
    with 400 (invalid input), whatever the payload, and the shared state is
    left as it was: no store entry, nothing queued. *)
Theorem submit_empty_id_rejected (payload : list Byte.byte) (σ : Shared) :
  let req := {| req_EventID := EmptyString; req_Payload := payload |} in
  app.handleEvents (app.POST req) σ = (app.Responded app.StatusBadRequest, σ) ∧
  handler_step (HStart req) σ = Some (HDone app.StatusBadRequest, σ).
Proof. done. Qed.

(** C5. A submission whose identifier is already in the store is answered
    with 409 (conflict) and leaves the shared state as it was: the heap,
    the table and the queue are unchanged. *)
Theorem submit_duplicate_conflict (m : Machine) (req : EventRequest) :
  reachable m →
  store.Exists (st (shared m)) (req_EventID req) = true →
  app.handleEvents (app.POST req) (shared m)
    = (app.Responded app.StatusConflict, shared m) ∧
  handler_step (HStart req) (shared m) = Some (HDone app.StatusConflict, shared m).
Proof.
  intros Hr Hex. apply reachable_Inv in Hr. destruct Hr as [Hok _ _ _ _].
  assert (req_EventID req ≠ EmptyString) as Hne.
  { intros Heq. unfold store.Exists in Hex.
    rewrite Heq, (ok_nonempty _ Hok) in Hex. done. }
  rewrite handleEvents_POST. unfold handler_step.
  destruct (decide (req_EventID req = EmptyString)); [done |].
  by rewrite Hex.
Qed.

Lemma submit_duplicate_conflict_witness :
  ∃ m, run [Arrive evt_001; Handler 0; Handler 0; Handler 0] boot = Some m ∧
       app.handleEvents (app.POST evt_001) (shared m)
         = (app.Responded app.StatusConflict, shared m) ∧
       handler_step (HStart evt_001) (shared m)
         = Some (HDone app.StatusConflict, shared m).
Proof.
  destruct (run [Arrive evt_001; Handler 0; Handler 0; Handler 0] boot)
    as [m |] eqn:Hrun; [| by vm_compute in Hrun].
  exists m. split; [done |].
  apply (submit_duplicate_conflict m evt_001).
  - by exists [Arrive evt_001; Handler 0; Handler 0; Handler 0].
  - vm_compute in Hrun. by injection Hrun as <-.
Defined.

(** ** Accepted submissions *)

Lemma GetStatus_found (h : heap) (s : store.Store) (k : string) (x : EventStatus) :
  store.GetStatus h s k = Some (x, true) ↔
  ∃ p e, store.events s !! k = Some p ∧ h !! p = Some e ∧ Status e = x.
Proof.
  unfold store.GetStatus. split.
  - destruct (store.events s !! k) as [p |]; [| done].
    destruct (h !! p) as [e |] eqn:Hp; [| done]. simpl.
    intros [= <-]. by exists p, e.
  - intros (p & e & -> & Hp & <-). by rewrite Hp.
Qed.



(** ** Records under sequences of core operations *)

Lemma GetStatus_total (σ : Shared) (k : string) :
  ok σ → is_Some (store.GetStatus (mem σ) (st σ) k).
Proof.
  intros Hok. unfold store.GetStatus.
  destruct (store.events (st σ) !! k) as [p |] eqn:Hk; [| eauto].
  destruct (ok_table _ Hok k p Hk) as (e & -> & _). simpl. eauto.
Qed.

Lemma exec_op_ok (o : core_op) (σ : Shared) :
  ok σ →
  ∃ σ', exec_op o σ = Some σ' ∧ ok σ' ∧ heap_le (mem σ) (mem σ') ∧
        ∀ k p, store.events (st σ) !! k = Some p →
               store.events (st σ') !! k = Some p.
Proof.
  intros Hok. destruct o as [req | k | k |]; simpl.
  - rewrite handleEvents_POST.
    destruct (decide (req_EventID req = EmptyString)) as [Hid | Hid].
    { exists σ. auto using heap_le_refl. }
    destruct (store.Exists (st σ) (req_EventID req)) eqn:Hex.
    { exists σ. auto using heap_le_refl. }
    destruct (ok_alloc_Save σ req Hok Hid) as (HSv & Hok1 & [Hle _] & Hh).
    simpl. rewrite HSv.
    assert (∀ k p, store.events (st σ) !! k = Some p →
              <[req_EventID req := length (mem σ)]> (store.events (st σ)) !! k
                = Some p) as Hkeep.
    { intros k p Hk. rewrite lookup_insert_ne; [done |].
      intros <-. unfold store.Exists in Hex. by rewrite Hk in Hex. }
    destruct (worker.Enqueue _ _) as [w |] eqn:HE.
    + eexists. split; [done |]. split; [| split; [exact Hle | exact Hkeep]].
      by eapply ok_Enqueue.
    + eexists. split; [done |]. split; [done |]. split; [exact Hle | exact Hkeep].
  - destruct (MarkProcessed_total σ k Hok) as [h HM]. rewrite HM. simpl.
    destruct (ok_MarkProcessed σ k h Hok HM) as [Hok' [Hle _]].
    exists (with_mem h σ). auto.
  - destruct (GetStatus_total σ k Hok) as [r ->]. simpl.
    exists σ. auto using heap_le_refl.
  - exists σ. auto using heap_le_refl.
Qed.

Lemma exec_ops_ok (ops : list core_op) (σ : Shared) :
  ok σ →
  ∃ σ', exec_ops ops σ = Some σ' ∧ ok σ' ∧ heap_le (mem σ) (mem σ') ∧
        ∀ k p, store.events (st σ) !! k = Some p →
               store.events (st σ') !! k = Some p.
Proof.
  revert σ. induction ops as [| o ops IH]; intros σ Hok; simpl.
  - exists σ. auto using heap_le_refl.
  - destruct (exec_op_ok o σ Hok) as (σ1 & -> & Hok1 & Hle1 & Hk1). simpl.
    destruct (IH σ1 Hok1) as (σ2 & -> & Hok2 & Hle2 & Hk2).
    exists σ2. split; [done |]. split; [done |].
    split; [by eapply heap_le_trans | auto].
Qed.

(** X20. Along every sequence of core operations that do not overlap
    (each issued after the one before has returned) on a fresh store, no
    operation fails, and a key that is in the store stays there, bound to
    the same identifier and payload; its status is [accepted] or
    [processed], and it either stays what it was or goes from [accepted]
    to [processed] (so never back, and at most once). *)
Theorem record_kept_and_status_monotone (ops1 ops2 : list core_op) :
  ∃ σ1 σ2,
    exec_ops ops1 app.New = Some σ1 ∧ exec_ops ops2 σ1 = Some σ2 ∧
    ∀ k e, record_of σ1 k = Some e →
      ∃ e', record_of σ2 k = Some e' ∧
            EventID e' = k ∧ EventID e = k ∧ Payload e' = Payload e ∧
            (Status e = StatusAccepted ∨ Status e = StatusProcessed) ∧
            (Status e' = Status e ∨
             (Status e = StatusAccepted ∧ Status e' = StatusProcessed)).
Proof.
  destruct (exec_ops_ok ops1 app.New ok_New) as (σ1 & H1 & Hok1 & _ & _).
  destruct (exec_ops_ok ops2 σ1 Hok1) as (σ2 & H2 & Hok2 & Hle & Hkeep).
  exists σ1, σ2. split; [done |]. split; [done |].
  intros k e Hrec. unfold record_of in *.
  destruct (store.events (st σ1) !! k) as [p |] eqn:Hk; [| done]. simpl in Hrec.
  rewrite (Hkeep k p Hk). simpl.
  destruct (Hle p e Hrec) as (e' & Hp' & Hid & Hpl & Hst).
  destruct (ok_table _ Hok1 k p Hk) as (e0 & He0 & Hid0).
  assert (e0 = e) as -> by congruence.
  pose proof (ok_status _ Hok1 p e Hrec) as Hse.
  exists e'. split; [done |]. split; [congruence |]. split; [done |].
  split; [done |]. split; [done |].
  destruct Hst as [Hst | Hst]; [by left |].
  destruct Hse as [Hse | Hse]; [right; by split | left; congruence].
Qed.

(** ** List *)

Lemma elem_of_List (s : store.Store) (p : ptr) :
  p ∈ store.List s ↔ ∃ k, store.events s !! k = Some p.
Proof.
  unfold store.List. rewrite list_elem_of_fmap. split.
  - intros ([k q] & -> & Hin). exists k. by apply elem_of_map_to_list.
  - intros [k Hk]. exists (k, p). split; [done | by apply elem_of_map_to_list].
Qed.






(** ** The running flag *)

Lemma step_pcs (l : label) (m m' : Machine) :
  step l m = Some m' →
  match l with
  | StartWorker => loop m = LoopIdle ∧ loop m' = LoopSelect ∧ stopper m' = stopper m
  | LoopDone => loop m = LoopSelect ∧ loop m' = LoopExit ∧ stopper m' = stopper m
  | LoopRecv =>
      loop m = LoopSelect ∧ (∃ p, loop m' = LoopWork p) ∧ stopper m' = stopper m
  | LoopProcess =>
      (∃ p, loop m = LoopWork p) ∧ loop m' = LoopSelect ∧ stopper m' = stopper m
  | StopWorker => loop m' = loop m ∧ stopper m' ≠ StopIdle
  | Arrive _ | Handler _ => loop m' = loop m ∧ stopper m' = stopper m
  end.
Proof.
  intros Hstep. destruct l as [req | i | | | | |]; unfold step in Hstep.
  - by injection Hstep as <-.
  - destruct (handlers m !! i) as [pc |]; [| done]. simpl in Hstep.
    destruct (handler_step pc (shared m)) as [[pc' σ'] |]; [| done].
    simpl in Hstep. by injection Hstep as <-.
  - destruct (loop m); try done. simpl in Hstep. by injection Hstep as <-.
  - destruct (loop m); try done. simpl in Hstep.
    destruct (worker.receive _) as [[event w] |]; [| done].
    simpl in Hstep. injection Hstep as <-. simpl. eauto.
  - destruct (loop m) as [| | event |]; try done. simpl in Hstep.
    destruct (worker.processEvent _ _); [| done].
    simpl in Hstep. injection Hstep as <-. simpl. eauto.
  - destruct (loop m); try done. simpl in Hstep.
    destruct (done _); [| done]. simpl in Hstep. by injection Hstep as <-.
  - destruct (stop_step (stopper m) (shared m)) as [[pc' σ'] |] eqn:HS; [| done].
    simpl in Hstep. injection Hstep as <-. simpl. split; [done |].
    destruct (stopper m); simpl in HS; try done.
    + by injection HS as <- <-.
    + case_decide; by injection HS as <- <-.
    + destruct (worker.receive _) as [[event w] |]; [| done].
      simpl in HS. by injection HS as <- <-.
    + destruct (worker.processEvent _ _); [| done].
      simpl in HS. by injection HS as <- <-.
Qed.

Lemma step_loop_idle (l : label) (m m' : Machine) :
  step l m = Some m' →
  loop m' = LoopIdle ↔ loop m = LoopIdle ∧ l ≠ StartWorker.
Proof.
  intros Hstep. pose proof (step_pcs l m m' Hstep) as Hpc.
  destruct l; firstorder congruence.
Qed.

Lemma step_loop_exit (l : label) (m m' : Machine) :
  step l m = Some m' →
  loop m' = LoopExit ↔ loop m = LoopExit ∨ l = LoopDone.
Proof.
  intros Hstep. pose proof (step_pcs l m m' Hstep) as Hpc.
  destruct l; firstorder congruence.
Qed.

Lemma step_stop_idle (l : label) (m m' : Machine) :
  step l m = Some m' →
  stopper m' = StopIdle ↔ stopper m = StopIdle ∧ l ≠ StopWorker.
Proof.
  intros Hstep. pose proof (step_pcs l m m' Hstep) as Hpc.
  destruct l; firstorder congruence.
Qed.

(** How the labels of a schedule that ran show in the program points. *)
Lemma run_pcs (sched : list label) (m m' : Machine) :
  run sched m = Some m' →
  (StartWorker ∉ sched → loop m = LoopIdle → loop m' = LoopIdle) ∧
  (StartWorker ∈ sched → loop m' ≠ LoopIdle) ∧
  (loop m ≠ LoopIdle → loop m' ≠ LoopIdle) ∧
  (LoopDone ∈ sched → loop m' = LoopExit) ∧
  (loop m = LoopExit → loop m' = LoopExit) ∧
  (LoopDone ∉ sched → loop m ≠ LoopExit → loop m' ≠ LoopExit) ∧
  (stopper m' ≠ StopIdle → stopper m ≠ StopIdle ∨ StopWorker ∈ sched) ∧
  (stopper m ≠ StopIdle → stopper m' ≠ StopIdle) ∧
  (StopWorker ∈ sched → stopper m' ≠ StopIdle).
Proof.
  revert m. induction sched as [| l sched IH]; intros m Hrun; simpl in Hrun.
  - injection Hrun as <-. repeat split; try done; auto.
    all: intros H; by apply elem_of_nil in H.
  - destruct (step l m) as [m1 |] eqn:Hstep; [| done]. simpl in Hrun.
    destruct (IH m1 Hrun) as (I1 & I2 & I3 & I4 & I5 & I6 & I7 & I8 & I9).
    pose proof (step_loop_idle l m m1 Hstep) as Hidle.
    pose proof (step_loop_exit l m m1 Hstep) as Hexit.
    pose proof (step_stop_idle l m m1 Hstep) as Hstop.
    repeat split.
    + intros Hnot Hl. apply not_elem_of_cons in Hnot as [Hne Hs].
      apply I1; [done |]. apply Hidle. split; [done | congruence].
    + intros Hin. apply elem_of_cons in Hin as [<- | Hin]; [| by apply I2].
      apply I3. intros H. by apply Hidle in H as [_ H].
    + intros Hne. apply I3. intros H. by apply Hidle in H as [H _].
    + intros Hin. apply elem_of_cons in Hin as [<- | Hin]; [| by apply I4].
      apply I5. apply Hexit. by right.
    + intros Hl. apply I5. apply Hexit. by left.
    + intros Hnot Hne. apply not_elem_of_cons in Hnot as [Hl Hs].
      apply I6; [done |]. intros H. apply Hexit in H as [H | H]; congruence.
    + intros Hne. destruct (I7 Hne) as [H1 | Hin]; [| right; by right].
      destruct l; try (left; intros H; apply H1, Hstop; by split).
      right. by left.
    + intros Hne. apply I8. intros H. by apply Hstop in H as [H _].
    + intros Hin. apply elem_of_cons in Hin as [<- | Hin]; [| by apply I9].
      apply I8. intros H. by apply Hstop in H as [_ H].
Qed.

(** X19. In every state the process reaches, [IsRunning] (and so
    [IsReady]) is false as long as [Start] has not been called; it is true
    from the call of [Start], at once, until the loop takes the [done]
    case; it is false from then on, which can only happen after [Stop] was
    called.  Once [Stop] was called, the loop can take the [done] case
    whenever it is at its [select], and the flag is false after that
    step. *)
Theorem running_follows_the_loop (sched : list label) (m : Machine) :
  run sched boot = Some m →
  (StartWorker ∉ sched → app.IsReady (shared m) = false) ∧
  (StartWorker ∈ sched → LoopDone ∉ sched → app.IsReady (shared m) = true) ∧
  (LoopDone ∈ sched → app.IsReady (shared m) = false ∧ StopWorker ∈ sched) ∧
  (∀ m', step StartWorker m = Some m' → app.IsReady (shared m') = true) ∧
  (StopWorker ∈ sched → loop m = LoopSelect →
     ∃ m', step LoopDone m = Some m' ∧ app.IsReady (shared m') = false).
Proof.
  intros Hrun.
  destruct (run_Inv sched boot m Inv_boot Hrun) as [HI _].
  destruct (Inv_flag _ HI) as (Hflag & Hexit & Hdone).
  destruct (run_pcs sched boot m Hrun)
    as (I1 & I2 & _ & I4 & _ & I6 & I7 & _ & I9).
  unfold app.IsReady, worker.IsRunning.
  split; [| split; [| split; [| split]]].
  - intros Hnot. rewrite Hflag, (I1 Hnot); done.
  - intros Hin Hnot. rewrite Hflag.
    pose proof (I2 Hin) as Hni. pose proof (I6 Hnot) as Hne.
    destruct (loop m); [by destruct Hni | done | done | by destruct Hne].
  - intros Hin. rewrite Hflag, (I4 Hin). split; [done |].
    destruct I7 as [H | H]; [apply Hdone, Hexit, I4, Hin | done | done].
  - intros m' Hstep. unfold step in Hstep.
    destruct (loop m); try done. simpl in Hstep. by injection Hstep as <-.
  - intros Hin Hsel. unfold step. rewrite Hsel. simpl.
    rewrite (proj2 Hdone (I9 Hin)). simpl. eauto.
Qed.

Lemma running_follows_the_loop_witness :
  ∃ m, run [StartWorker; StopWorker; LoopDone] boot = Some m ∧
       app.IsReady (shared m) = false.
Proof.
  destruct (run [StartWorker; StopWorker; LoopDone] boot) as [m |] eqn:Hrun;
    [| by vm_compute in Hrun].
  exists m. split; [done |].
  destruct (running_follows_the_loop _ m Hrun) as (_ & _ & H3 & _).
  apply H3. rewrite !elem_of_cons. auto.
Defined.

(** C4 does not hold of the code. The worker is started, [Stop] is called
    on an empty queue and returns; the loop goroutine, which [Stop] does
    not wait for, has not looked at [done] yet, and [IsRunning] still
    answers true after [Stop] has returned. *)
Lemma IsRunning_true_after_Stop_returned :
  (m ← run [StartWorker; StopWorker; StopWorker] boot;
   Some (stopper m, loop m, app.IsReady (shared m)))
  = Some (StopReturned, LoopSelect, true).
Proof. reflexivity. Qed.

(** ** Concurrent duplicates and shutdown *)

(** C1 does not hold of the code. Two handlers of requests with the same
    identifier both call [Exists] before either calls [Save]: both find the
    key absent, both save, both enqueue, both answer 202, and the event is
    queued twice. *)
Theorem concurrent_duplicates_both_accepted :
  (m ← run [Arrive evt_001; Arrive evt_001;
            Handler 0; Handler 1;        (* both call [Exists] *)
            Handler 0; Handler 1;        (* both call [Save] *)
            Handler 0; Handler 1] boot;  (* both call [Enqueue] *)
   Some (handlers m, queue (wk (shared m)), store.List (st (shared m))))
  = Some ([HDone app.StatusAccepted; HDone app.StatusAccepted], [0; 1], [1]).
Proof. vm_compute. reflexivity. Qed.

(** C2 does not hold of the code. One event is queued when [Stop] is
    called.  After [Stop] closed [done], the loop, which has two ready
    cases at its [select], takes the event; [Stop] finds the queue empty
    and returns while the event is still [accepted].  If the loop takes the
    event between [Stop]'s test of the length and [Stop]'s receive, [Stop]
    waits on the empty queue and cannot move, even after the loop left. *)
Theorem Stop_returns_before_taken_item_is_processed :
  (m ← run [Arrive evt_001; Handler 0; Handler 0; Handler 0; StartWorker;
            StopWorker;                  (* [close(w.done)], one item queued *)
            LoopRecv;                    (* the loop takes it *)
            StopWorker] boot;            (* [len(w.queue) > 0] is false *)
   Some (stopper m, loop m, status_of m "evt_001"))
  = Some (StopReturned, LoopWork 0, Some (StatusAccepted, true))
  ∧
  (m ← run [Arrive evt_001; Handler 0; Handler 0; Handler 0; StartWorker;
            StopWorker;                  (* [close(w.done)] *)
            StopWorker;                  (* [len(w.queue) > 0] is true *)
            LoopRecv; LoopProcess; LoopDone] boot;
   Some (stopper m, loop m, step StopWorker m))
  = Some (StopRecv, LoopExit, None).
Proof. split; vm_compute; reflexivity. Qed.

(** C7 does not hold of the code. Two submissions of evt_001 overlap: both
    handlers call [Exists] before either calls [Save].  The first is saved
    with payload [{}], queued and processed.  Then the second handler's
    [Save] overwrites the entry: the key is bound to the payload [[1]] and
    its status is back from [processed] to [accepted]. *)
Theorem overlapping_submissions_rebind_the_key :
  (m ← run [StartWorker; Arrive evt_001; Arrive evt_001_again;
            Handler 0; Handler 1;        (* both call [Exists] *)
            Handler 0; Handler 0;        (* the first saves and enqueues *)
            LoopRecv; LoopProcess] boot; (* and is processed *)
   m' ← step (Handler 1) m;              (* the second calls [Save] *)
   Some (record_of (shared m) "evt_001", record_of (shared m') "evt_001"))
  = Some (Some {| EventID := "evt_001"; Payload := [Byte.x7b; Byte.x7d];
                  Status := StatusProcessed |},
          Some {| EventID := "evt_001"; Payload := [Byte.x5b; Byte.x31; Byte.x5d];
                  Status := StatusAccepted |}).
Proof. vm_compute. reflexivity. Qed.

(** ** Stop without a competing loop *)

(** When only the caller of [Stop] moves (the loop was never started, has
    left, or simply is not scheduled), the loop of [Stop] takes and
    processes every queued item and then returns. *)
Lemma drain_alone (q : list ptr) (m : Machine) :
  Inv m → stopper m = StopLen → queue (wk (shared m)) = q →
  ∃ m', run (replicate (3 * length q + 1) StopWorker) m = Some m' ∧
        stopper m' = StopReturned ∧
        queue (wk (shared m')) = [] ∧
        st (shared m') = st (shared m) ∧
        heap_le (mem (shared m)) (mem (shared m')) ∧
        ∀ p e, p ∈ q → mem (shared m) !! p = Some e →
          status_of m' (EventID e) = Some (StatusProcessed, true).
Proof.
  revert m. induction q as [| p q IH]; intros m HI Hpc Hq.
  - exists {| shared := shared m; loop := loop m; stopper := StopReturned;
              handlers := handlers m |}.
    split; [| split; [done | split; [done | split; [done | split]]]].
    + simpl. unfold step, stop_step. rewrite Hpc, Hq. done.
    + apply heap_le_refl.
    + intros p e Hp. by apply elem_of_nil in Hp.
  - pose proof (Inv_shared _ HI) as Hok.
    destruct (ok_queue _ Hok p) as (ep & Hep & [p0 Hp0]); [rewrite Hq; by left |].
    destruct (ok_table _ Hok _ _ Hp0) as (e0 & He0 & Hid0).
    set (w := {| queue := q; running := running (wk (shared m));
                 done := done (wk (shared m)) |}).
    set (h := <[p0 := set_Status StatusProcessed e0]> (mem (shared m))).
    set (m1 := {| shared := shared m; loop := loop m; stopper := StopRecv;
                  handlers := handlers m |}).
    set (m2 := {| shared := with_wk w (shared m); loop := loop m;
                  stopper := StopWork p; handlers := handlers m |}).
    set (m3 := {| shared := with_mem h (with_wk w (shared m)); loop := loop m;
                  stopper := StopLen; handlers := handlers m |}).
    assert (step StopWorker m = Some m1) as H1.
    { unfold step, stop_step. rewrite Hpc, Hq. done. }
    assert (step StopWorker m1 = Some m2) as H2.
    { unfold step, stop_step, worker.receive. simpl. rewrite Hq. done. }
    assert (step StopWorker m2 = Some m3) as H3.
    { unfold step, stop_step, worker.processEvent, store.MarkProcessed. simpl.
      rewrite Hep. simpl. rewrite Hp0, He0. done. }
    assert (Inv m3) as HI3.
    { apply (step_Inv _ _ _ (proj1 (step_Inv _ _ _
               (proj1 (step_Inv _ _ _ HI H1)) H2)) H3). }
    destruct (IH m3 HI3 eq_refl eq_refl)
      as (m' & Hrun & Hret & Hempty & Hst & Hle & Hproc).
    exists m'.
    split; [| split; [done | split; [done | split; [done | split]]]].
    + replace (3 * length (p :: q) + 1) with (S (S (S (3 * length q + 1))))
        by (simpl; lia).
      simpl replicate.
      by rewrite (run_cons_Some _ _ _ _ H1), (run_cons_Some _ _ _ _ H2),
        (run_cons_Some _ _ _ _ H3).
    + eapply heap_le_trans; [| exact Hle]. by apply heap_le_set_processed.
    + intros p' e Hin He. apply elem_of_cons in Hin as [-> | Hin].
      * assert (e = ep) as -> by congruence.
        assert (h !! p0 = Some (set_Status StatusProcessed e0)) as Hh.
        { apply list_lookup_insert_eq. by eapply lookup_lt_Some. }
        destruct (Hle p0 _ Hh) as (e' & He' & _ & _ & Hs).
        apply GetStatus_found. exists p0, e'.
        rewrite Hst. split; [done |]. split; [done |]. by destruct Hs.
      * destruct (heap_le_set_processed _ _ _ He0 p' e He)
          as (e3 & He3 & Hid3 & _).
        rewrite <- Hid3. by apply (Hproc p' e3).
Qed.

(** X18. Drain without a competing loop. From a reachable state in which
    [Stop] has not been called, if only the caller of [Stop] moves, [Stop]
    returns after three steps per queued event and two more; the queue is
    then empty and the key of every event that was queued has status
    [processed]. *)
Lemma Stop_alone_drains (m : Machine) :
  reachable m → stopper m = StopIdle →
  ∃ m', run (replicate (3 * length (queue (wk (shared m))) + 2) StopWorker) m
          = Some m' ∧
        stopper m' = StopReturned ∧
        queue (wk (shared m')) = [] ∧
        ∀ p e, p ∈ queue (wk (shared m)) → mem (shared m) !! p = Some e →
          status_of m' (EventID e) = Some (StatusProcessed, true).
Proof.
  intros Hreach Hpc.
  set (m0 := {| shared := with_wk (worker.close_done (wk (shared m))) (shared m);
                loop := loop m; stopper := StopLen; handlers := handlers m |}).
  assert (step StopWorker m = Some m0) as H0.
  { unfold step, stop_step. by rewrite Hpc. }
  pose proof (proj1 (step_Inv _ _ _ (reachable_Inv m Hreach) H0)) as HI0.
  destruct (drain_alone (queue (wk (shared m))) m0 HI0 eq_refl eq_refl)
    as (m' & Hrun & Hret & Hempty & _ & _ & Hproc).
  exists m'. split; [| done].
  replace (3 * length (queue (wk (shared m))) + 2)
    with (S (3 * length (queue (wk (shared m))) + 1)) by lia.
  simpl replicate. by rewrite (run_cons_Some _ _ _ _ H0).
Qed.

(** ** Duplicates that do not overlap *)

(** When the second submission of an identifier starts after the first one
    has answered 202, it is answered with 409 and changes nothing. *)
Lemma later_duplicate_conflicts (req req' : EventRequest) (σ σ' : Shared) :
  req_EventID req' = req_EventID req →
  app.handleEvents (app.POST req) σ = (app.Responded app.StatusAccepted, σ') →
  app.handleEvents (app.POST req') σ' = (app.Responded app.StatusConflict, σ').
Proof.
  intros Hid H. rewrite handleEvents_POST in *. rewrite Hid.
  destruct (decide (req_EventID req = EmptyString)) as [| Hne]; [done |].
  destruct (store.Exists (st σ) (req_EventID req)); [done |].
  simpl in H. unfold store.Save in H. rewrite alloc_fresh in H. simpl in H.
  destruct (worker.Enqueue _ _) as [w |]; [| done].
  injection H as <-. unfold store.Exists. simpl.
  by rewrite lookup_insert_eq.
Qed.

(** * Further properties of the code *)

(** ** The store's table *)

(** X1. [Save] followed by a lookup: once an allocated event is saved, its
    identifier exists and [GetStatus] answers the event's status; for every
    other key, [Exists] and [GetStatus] answer as before. *)
Theorem Save_then_lookup (h : heap) (s : store.Store) (p : ptr) (e : Event) :
  h !! p = Some e →
  ∃ s', store.Save h s p = Some s' ∧
        store.Exists s' (EventID e) = true ∧
        store.GetStatus h s' (EventID e) = Some (Status e, true) ∧
        ∀ k, k ≠ EventID e →
          store.Exists s' k = store.Exists s k ∧
          store.GetStatus h s' k = store.GetStatus h s k.
Proof.
  intros Hp. unfold store.Save, store.Exists, store.GetStatus. rewrite Hp. simpl.
  eexists. split; [done |]. simpl. rewrite lookup_insert_eq, Hp. simpl.
  split; [done |]. split; [done |]. intros k Hk.
  by rewrite lookup_insert_ne.
Qed.

Lemma Save_then_lookup_witness :
  let e := {| EventID := "evt_001"; Payload := []; Status := StatusAccepted |} in
  ∃ s', store.Save [e] store.New 0 = Some s' ∧
        store.Exists s' "evt_001" = true ∧
        store.GetStatus [e] s' "evt_001" = Some (StatusAccepted, true).
Proof.
  intros e.
  destruct (Save_then_lookup [e] store.New 0 e) as (s' & HS & HE & HG & _);
    [reflexivity |].
  by exists s'.
Defined.

Lemma Save_total (h : heap) (s : store.Store) (p : ptr) (e : Event) :
  h !! p = Some e → ∃ s', store.Save h s p = Some s'.
Proof. intros Hp. unfold store.Save. rewrite Hp. simpl. eauto. Qed.

Lemma length_List (s : store.Store) : length (store.List s) = size (store.events s).
Proof. unfold store.List. by rewrite length_fmap, length_map_to_list. Qed.

(** X2. [List] has one element per key: none for a new store; after [Save]
    it holds the saved pointer, and it is one longer if the identifier was
    not a key and as long as before if it was (the entry is overwritten). *)
Theorem List_length_after_Save (h : heap) (s s' : store.Store) (p : ptr) (e : Event) :
  h !! p = Some e → store.Save h s p = Some s' →
  store.List store.New = [] ∧
  p ∈ store.List s' ∧
  length (store.List s') =
    if store.Exists s (EventID e) then length (store.List s)
    else S (length (store.List s)).
Proof.
  intros Hp HS. unfold store.Save in HS. rewrite Hp in HS. simpl in HS.
  injection HS as <-. split; [| split].
  - unfold store.List, store.New. simpl. by rewrite map_to_list_empty.
  - apply elem_of_List. exists (EventID e). simpl. by rewrite lookup_insert_eq.
  - rewrite !length_List. simpl. rewrite map_size_insert. unfold store.Exists.
    by destruct (store.events s !! EventID e).
Qed.

Lemma List_length_after_Save_witness :
  let e := {| EventID := "evt_001"; Payload := []; Status := StatusAccepted |} in
  let s := {| store.events := {[ "evt_001" := 0 ]} |} in
  ∃ s', store.Save [e; e] s 1 = Some s' ∧ 1 ∈ store.List s' ∧
        length (store.List s') = length (store.List s).
Proof.
  intros e s.
  destruct (Save_total [e; e] s 1 e) as [s' HS]; [reflexivity |].
  exists s'. split; [done |].
  destruct (List_length_after_Save [e; e] s s' 1 e) as (_ & Hin & Hlen);
    [reflexivity | done |].
  split; [done |]. by rewrite Hlen.
Defined.

Lemma ok_table_inj (σ : Shared) (k k' : string) (p : ptr) :
  ok σ → store.events (st σ) !! k = Some p → store.events (st σ) !! k' = Some p →
  k = k'.
Proof.
  intros Hok Hk Hk'.
  destruct (ok_table _ Hok k p Hk) as (e & He & Hid).
  destruct (ok_table _ Hok k' p Hk') as (e' & He' & Hid').
  congruence.
Qed.

Lemma set_Status_twice (s : EventStatus) (e : Event) :
  set_Status s (set_Status s e) = set_Status s e.
Proof. done. Qed.

(** X3. In every reachable state [MarkProcessed(k)] succeeds, a second
    [MarkProcessed(k)] changes nothing more, no object is added to or
    removed from the heap, and [GetStatus] of every other key answers as
    before (distinct keys never share a record). *)
Theorem MarkProcessed_idempotent_and_local (m : Machine) (k : string) :
  reachable m →
  ∃ h', store.MarkProcessed (mem (shared m)) (st (shared m)) k = Some h' ∧
        store.MarkProcessed h' (st (shared m)) k = Some h' ∧
        length h' = length (mem (shared m)) ∧
        ∀ k', k' ≠ k →
          store.GetStatus h' (st (shared m)) k'
            = store.GetStatus (mem (shared m)) (st (shared m)) k'.
Proof.
  intros Hreach. pose proof (Inv_shared _ (reachable_Inv m Hreach)) as Hok.
  unfold store.MarkProcessed, store.GetStatus.
  destruct (store.events (st (shared m)) !! k) as [p |] eqn:Hk.
  - destruct (ok_table _ Hok k p Hk) as (e & He & _). rewrite He. simpl.
    eexists. split; [done |].
    rewrite list_lookup_insert_eq by eauto using lookup_lt_Some. simpl.
    rewrite list_insert_insert_eq, set_Status_twice.
    split; [done |]. split; [apply length_insert |].
    intros k' Hne.
    destruct (store.events (st (shared m)) !! k') as [p' |] eqn:Hk'; [| done].
    rewrite list_lookup_insert_ne; [done |].
    intros ->. apply Hne. by eapply ok_table_inj.
  - exists (mem (shared m)). auto.
Qed.

Lemma MarkProcessed_idempotent_and_local_witness :
  ∃ m h', run (submit_all 2) boot = Some m ∧
          store.MarkProcessed (mem (shared m)) (st (shared m)) "k" = Some h' ∧
          store.MarkProcessed h' (st (shared m)) "k" = Some h' ∧
          store.GetStatus (mem (shared m)) (st (shared m)) "k"
            = Some (StatusAccepted, true) ∧
          store.GetStatus h' (st (shared m)) "k" = Some (StatusProcessed, true) ∧
          store.GetStatus h' (st (shared m)) "xk" = Some (StatusAccepted, true).
Proof.
  destruct (run (submit_all 2) boot) as [m |] eqn:Hrun; [| by vm_compute in Hrun].
  destruct (MarkProcessed_idempotent_and_local m "k")
    as (h' & H1 & H2 & _ & Hother); [by eexists |].
  exists m, h'. split; [done |]. split; [done |]. split; [done |].
  pose proof (Hother "xk") as Hxk.
  vm_compute in Hrun. injection Hrun as <-.
  vm_compute in H1. injection H1 as <-.
  split; [done |]. split; [done |]. by rewrite Hxk.
Defined.

(** X4. In every reachable state two [MarkProcessed] calls give the same
    heap in either order. *)
Theorem MarkProcessed_commutes (m : Machine) (k1 k2 : string) :
  reachable m →
  (h ← store.MarkProcessed (mem (shared m)) (st (shared m)) k1;
   store.MarkProcessed h (st (shared m)) k2)
  = (h ← store.MarkProcessed (mem (shared m)) (st (shared m)) k2;
     store.MarkProcessed h (st (shared m)) k1)
  ∧ is_Some (h ← store.MarkProcessed (mem (shared m)) (st (shared m)) k1;
             store.MarkProcessed h (st (shared m)) k2).
Proof.
  intros Hreach. pose proof (Inv_shared _ (reachable_Inv m Hreach)) as Hok.
  unfold store.MarkProcessed.
  destruct (store.events (st (shared m)) !! k1) as [p1 |] eqn:Hk1;
    destruct (store.events (st (shared m)) !! k2) as [p2 |] eqn:Hk2; simpl.
  - destruct (ok_table _ Hok k1 p1 Hk1) as (e1 & He1 & _).
    destruct (ok_table _ Hok k2 p2 Hk2) as (e2 & He2 & _).
    rewrite He1, He2. simpl.
    destruct (decide (p1 = p2)) as [-> | Hne].
    + assert (e1 = e2) as -> by congruence. split; [done |].
      rewrite list_lookup_insert_eq by eauto using lookup_lt_Some. simpl. eauto.
    + rewrite !list_lookup_insert_ne by done. rewrite He1, He2. simpl.
      split; [| eauto]. f_equal. by apply list_insert_insert_ne.
  - destruct (ok_table _ Hok k1 p1 Hk1) as (e1 & He1 & _).
    rewrite He1. simpl. eauto.
  - destruct (ok_table _ Hok k2 p2 Hk2) as (e2 & He2 & _).
    rewrite He2. simpl. eauto.
  - eauto.
Qed.

Lemma MarkProcessed_commutes_witness :
  ∃ m h', run (submit_all 2) boot = Some m ∧
          (h ← store.MarkProcessed (mem (shared m)) (st (shared m)) "k";
           store.MarkProcessed h (st (shared m)) "xk") = Some h' ∧
          (h ← store.MarkProcessed (mem (shared m)) (st (shared m)) "xk";
           store.MarkProcessed h (st (shared m)) "k") = Some h' ∧
          store.GetStatus h' (st (shared m)) "k" = Some (StatusProcessed, true) ∧
          store.GetStatus h' (st (shared m)) "xk" = Some (StatusProcessed, true).
Proof.
  destruct (run (submit_all 2) boot) as [m |] eqn:Hrun; [| by vm_compute in Hrun].
  destruct (MarkProcessed_commutes m "k" "xk") as [Hcomm [h' Hh']];
    [by eexists |].
  exists m, h'. split; [done |]. split; [done |].
  split; [by rewrite <- Hcomm |].
  vm_compute in Hrun. injection Hrun as <-.
  vm_compute in Hh'. by injection Hh' as <-.
Defined.

(** ** The worker's queue *)

(** X5. The queue is first in, first out, and [Enqueue] leaves the flags
    alone: after a successful [Enqueue], a receive yields the sent event if
    the queue was empty, and otherwise the same event a receive would have
    yielded before, the sent event still being queued behind. *)
Theorem Enqueue_receive_fifo (w w' : Worker) (p : ptr) :
  worker.Enqueue w p = Some w' →
  running w' = running w ∧ done w' = done w ∧
  match worker.receive w with
  | None => worker.receive w' = Some (p, w)
  | Some (x, w1) =>
      ∃ w1', worker.Enqueue w1 p = Some w1' ∧ worker.receive w' = Some (x, w1')
  end.
Proof.
  unfold worker.Enqueue, worker.receive. case_decide as Hlen; [| done].
  intros [= <-]. simpl. split; [done |]. split; [done |].
  destruct w as [[| x q] r d]; simpl in *; [done |].
  rewrite decide_True by lia. eauto.
Qed.

Lemma Enqueue_receive_fifo_witness :
  let w := {| queue := [7]; running := true; done := false |} in
  ∃ w' w1', worker.Enqueue w 8 = Some w' ∧ worker.receive w' = Some (7, w1') ∧
            queue w1' = [8].
Proof.
  intros w. destruct (worker.Enqueue w 8) as [w' |] eqn:HE; [| by vm_compute in HE].
  destruct (Enqueue_receive_fifo w w' 8 HE) as (_ & _ & w1' & HE1 & HR).
  exists w', w1'. split; [done |]. split; [done |].
  vm_compute in HE1. by injection HE1 as <-.
Defined.

(** A step leaves the queue alone, appends one event to a queue that is not
    full, or removes its first event. *)
Lemma step_queue (l : label) (m m' : Machine) :
  step l m = Some m' →
  queue (wk (shared m')) = queue (wk (shared m)) ∨
  (∃ p, queue (wk (shared m')) = queue (wk (shared m)) ++ [p] ∧
        length (queue (wk (shared m))) < worker.capacity) ∨
  (∃ p, queue (wk (shared m)) = p :: queue (wk (shared m'))).
Proof.
  assert (∀ σ σ' p, worker.processEvent σ p = Some σ' → wk σ' = wk σ) as HP.
  { intros σ σ' p H. unfold worker.processEvent in H.
    destruct (mem σ !! p); [| done]. simpl in H.
    destruct (store.MarkProcessed _ _ _); [| done]. by injection H as <-. }
  assert (∀ w w' p, worker.receive w = Some (p, w') → queue w = p :: queue w')
    as HR.
  { intros w w' p H. unfold worker.receive in H.
    destruct (queue w); [done |]. by injection H as <- <-. }
  intros Hstep. destruct l as [req | i | | | | |]; unfold step in Hstep.
  - injection Hstep as <-. by left.
  - destruct (handlers m !! i) as [pc |]; [| done]. simpl in Hstep.
    destruct (handler_step pc (shared m)) as [[pc' σ'] |] eqn:HH; [| done].
    simpl in Hstep. injection Hstep as <-. simpl.
    destruct pc as [req | req | event | code]; simpl in HH.
    + left. case_decide; [by injection HH as <- <- |].
      destruct (store.Exists _ _); by injection HH as <- <-.
    + left. unfold store.Save in HH. rewrite alloc_fresh in HH.
      simpl in HH. by injection HH as <- <-.
    + right. left. unfold worker.Enqueue in HH. case_decide; [| done].
      simpl in HH. injection HH as <- <-. simpl. eauto.
    + done.
  - destruct (loop m); try done. simpl in Hstep. injection Hstep as <-. by left.
  - destruct (loop m); try done. simpl in Hstep.
    destruct (worker.receive _) as [[event w] |] eqn:Hrecv; [| done].
    simpl in Hstep. injection Hstep as <-. right. right. simpl. eauto.
  - destruct (loop m) as [| | event |]; try done. simpl in Hstep.
    destruct (worker.processEvent _ _) as [σ' |] eqn:Hproc; [| done].
    simpl in Hstep. injection Hstep as <-. left. simpl.
    by rewrite (HP _ _ _ Hproc).
  - destruct (loop m); try done. simpl in Hstep.
    destruct (done _); [| done]. simpl in Hstep. injection Hstep as <-. by left.
  - destruct (stop_step (stopper m) (shared m)) as [[pc' σ'] |] eqn:HS; [| done].
    simpl in Hstep. injection Hstep as <-. simpl.
    destruct (stopper m); simpl in HS; try done.
    + injection HS as <- <-. by left.
    + left. case_decide; by injection HS as <- <-.
    + destruct (worker.receive _) as [[event w] |] eqn:Hrecv; [| done].
      simpl in HS. injection HS as <- <-. right. right. simpl. eauto.
    + destruct (worker.processEvent _ _) as [σ1 |] eqn:Hproc; [| done].
      simpl in HS. injection HS as <- <-. left. by rewrite (HP _ _ _ Hproc).
Qed.

Lemma run_queue_bound (sched : list label) (m m' : Machine) :
  length (queue (wk (shared m))) ≤ worker.capacity →
  run sched m = Some m' →
  length (queue (wk (shared m'))) ≤ worker.capacity.
Proof.
  revert m. induction sched as [| l sched IH]; intros m Hlen Hrun; simpl in Hrun.
  - by injection Hrun as <-.
  - destruct (step l m) as [m1 |] eqn:Hstep; [| done]. simpl in Hrun.
    apply (IH m1); [| done].
    destruct (step_queue l m m1 Hstep) as [-> | [(p & -> & Hlt) | (p & Hq)]].
    + done.
    + rewrite length_app. simpl. lia.
    + rewrite Hq in Hlen. simpl in Hlen. lia.
Qed.

(** X6. Whatever the goroutines do, the queue never holds more than a
    hundred events. *)
Theorem queue_within_capacity (m : Machine) :
  reachable m → length (queue (wk (shared m))) ≤ 100.
Proof.
  intros [sched Hrun]. apply (run_queue_bound sched boot m); [| done].
  simpl. unfold worker.capacity. lia.
Qed.

Lemma queue_within_capacity_witness :
  ∃ m, run (submit_all 3) boot = Some m ∧
       length (queue (wk (shared m))) ≤ 100.
Proof.
  destruct (run (submit_all 3) boot) as [m |] eqn:Hrun;
    [| by vm_compute in Hrun].
  exists m. split; [done |].
  apply queue_within_capacity. by exists (submit_all 3).
Defined.

(** ** What every interleaving keeps *)

Lemma sample_reachable :
  ∃ m, run [Arrive evt_001; Handler 0; Handler 0; Handler 0] boot = Some m ∧
       reachable m ∧ queue (wk (shared m)) = [0] ∧
       loop m = LoopIdle ∧ stopper m = StopIdle.
Proof.
  destruct (run [Arrive evt_001; Handler 0; Handler 0; Handler 0] boot)
    as [m |] eqn:Hrun; [| by vm_compute in Hrun].
  exists m. split; [done |]. split; [by eexists |].
  vm_compute in Hrun. by injection Hrun as <-.
Qed.

(** X7. In every reachable state, an event that is queued, or that the loop
    or [Stop] has taken and not yet processed, is allocated, has a non-empty
    identifier, and that identifier is a key of the store; [processEvent]
    on it does not panic and leaves the key with status [processed]. *)
Theorem queued_events_are_saved (m : Machine) (p : ptr) :
  reachable m →
  p ∈ queue (wk (shared m)) ∨ loop m = LoopWork p ∨ stopper m = StopWork p →
  ∃ e σ',
    mem (shared m) !! p = Some e ∧
    EventID e ≠ EmptyString ∧
    store.Exists (st (shared m)) (EventID e) = true ∧
    worker.processEvent (shared m) p = Some σ' ∧
    store.GetStatus (mem σ') (st σ') (EventID e) = Some (StatusProcessed, true).
Proof.
  intros Hreach Hp. pose proof (reachable_Inv m Hreach) as HI.
  pose proof (Inv_shared _ HI) as Hok.
  assert (handed (shared m) p) as (e & He & [p0 Hp0]).
  { destruct Hp as [Hq | [Hl | Hs]].
    - by apply (ok_queue _ Hok).
    - pose proof (Inv_loop _ HI) as H. by rewrite Hl in H.
    - pose proof (Inv_stop _ HI) as H. by rewrite Hs in H. }
  destruct (ok_table _ Hok _ _ Hp0) as (e0 & He0 & Hid0).
  destruct (MarkProcessed_sets_processed _ _ _ _ _ Hp0 He0) as [HM Hnew].
  eexists e, _. split; [done |]. split; [| split; [| split]].
  - intros Heq. rewrite Heq, (ok_nonempty _ Hok) in Hp0. done.
  - unfold store.Exists. by rewrite Hp0.
  - unfold worker.processEvent. rewrite He. simpl. rewrite HM. done.
  - apply GetStatus_found. simpl. by exists p0, (set_Status StatusProcessed e0).
Qed.

Lemma queued_events_are_saved_witness :
  ∃ m e σ', mem (shared m) !! 0 = Some e ∧
            worker.processEvent (shared m) 0 = Some σ'.
Proof.
  destruct sample_reachable as (m & _ & Hreach & Hq & _).
  destruct (queued_events_are_saved m 0 Hreach) as (e & σ' & He & _ & _ & HP & _).
  - left. rewrite Hq. by left.
  - by exists m, e, σ'.
Defined.

(** X8. No goroutine panics. In every reachable state a handler cannot move
    only when it has answered or when it is about to send on a full queue;
    the caller of [Stop] cannot move only when it has returned or when it
    is about to receive from an empty queue; and the loop can always finish
    the [processEvent] it is in. *)
Theorem goroutines_only_wait_on_channels (m : Machine) :
  reachable m →
  (∀ i pc, handlers m !! i = Some pc → step (Handler i) m = None →
     (∃ code, pc = HDone code) ∨
     (∃ event, pc = HEnqueue event ∧
               worker.capacity ≤ length (queue (wk (shared m))))) ∧
  (step StopWorker m = None →
     stopper m = StopReturned ∨
     (stopper m = StopRecv ∧ queue (wk (shared m)) = [])) ∧
  (∀ event, loop m = LoopWork event → is_Some (step LoopProcess m)).
Proof.
  intros Hreach. pose proof (reachable_Inv m Hreach) as HI.
  pose proof (Inv_shared _ HI) as Hok.
  split; [| split].
  - intros i pc Hi Hnone. unfold step in Hnone. rewrite Hi in Hnone.
    simpl in Hnone. destruct pc as [req | req | event | code]; simpl in Hnone.
    + case_decide; [done |]. by destruct (store.Exists _ _).
    + unfold store.Save in Hnone. by rewrite alloc_fresh in Hnone.
    + right. exists event. split; [done |].
      unfold worker.Enqueue in Hnone. case_decide; [done | lia].
    + left. eauto.
  - intros Hnone. unfold step in Hnone. pose proof (Inv_stop _ HI) as Hs.
    destruct (stopper m) as [| | | event |]; simpl in *.
    + done.
    + by case_decide.
    + right. split; [done |]. unfold worker.receive in Hnone.
      by destruct (queue _).
    + destruct (processEvent_total _ _ Hok Hs) as [σ' Hσ'].
      by rewrite Hσ' in Hnone.
    + by left.
  - intros event Hl. unfold step, loop_step. rewrite Hl.
    pose proof (Inv_loop _ HI) as Hh. rewrite Hl in Hh.
    destruct (processEvent_total _ _ Hok Hh) as [σ' ->]. simpl. eauto.
Qed.

Lemma goroutines_only_wait_on_channels_witness :
  (∃ m, run (submit_all 1 ++ [StartWorker; LoopRecv; StopWorker; StopWorker]) boot
          = Some m ∧
        step (Handler 0) m = None ∧
        (∃ code, handlers m !! 0 = Some (HDone code)) ∧
        step StopWorker m = None ∧
        stopper m = StopReturned ∧
        loop m = LoopWork 0 ∧
        is_Some (step LoopProcess m)) ∧
  (∃ m, run (submit_all 100 ++ [Arrive evt_001; Handler 100; Handler 100]) boot
          = Some m ∧
        step (Handler 100) m = None ∧
        worker.capacity ≤ length (queue (wk (shared m)))).
Proof.
  split.
  - destruct (run (submit_all 1 ++ [StartWorker; LoopRecv; StopWorker; StopWorker])
                boot) as [m |] eqn:Hrun; [| by vm_compute in Hrun].
    destruct (goroutines_only_wait_on_channels m) as (HH & HS & HL);
      [by eexists |].
    assert (handlers m !! 0 = Some (HDone app.StatusAccepted) ∧
            step (Handler 0) m = None ∧ step StopWorker m = None ∧
            loop m = LoopWork 0) as (Hpc & HnH & HnS & Hloop).
    { vm_compute in Hrun. by injection Hrun as <-. }
    exists m. split; [done |]. split; [done |].
    split.
    { destruct (HH 0 _ Hpc HnH) as [[code Heq] | (event & Hev & _)]; [| done].
      exists code. by rewrite Hpc, Heq. }
    split; [done |]. split.
    { destruct (HS HnS) as [Hret | [Hrecv Hq]]; [done |].
      vm_compute in Hrun. injection Hrun as <-. done. }
    split; [done |]. by apply (HL 0).
  - assert ((m ← run (submit_all 100 ++ [Arrive evt_001; Handler 100; Handler 100])
                   boot;
             Some (handlers m !! 100, step (Handler 100) m))
            = Some (Some (HEnqueue 100), None)) as Hfacts.
    { vm_compute. reflexivity. }
    destruct (run (submit_all 100 ++ [Arrive evt_001; Handler 100; Handler 100])
                boot) as [m |] eqn:Hrun; [| discriminate Hfacts].
    cbn [mbind option_bind] in Hfacts. injection Hfacts as Hpc Hnone.
    destruct (goroutines_only_wait_on_channels m) as (HH & _); [by eexists |].
    exists m. split; [reflexivity |]. split; [exact Hnone |].
    destruct (HH 100 _ Hpc Hnone) as [[code Heq] | (event & _ & Hfull)];
      [discriminate Heq | exact Hfull].
Defined.

(** X9. Whatever the goroutines do from a reachable state on: no object
    leaves the heap, an allocated event keeps its identifier and its
    payload, its status stays or becomes [processed], and a key of the
    store stays a key. *)
Theorem objects_and_keys_persist (sched : list label) (m m' : Machine) :
  reachable m → run sched m = Some m' →
  heap_le (mem (shared m)) (mem (shared m')) ∧
  length (mem (shared m)) ≤ length (mem (shared m')) ∧
  ∀ k, store.Exists (st (shared m)) k = true →
       store.Exists (st (shared m')) k = true.
Proof.
  intros Hreach Hrun.
  destruct (run_Inv sched m m' (reachable_Inv m Hreach) Hrun) as [_ [Hle Hkeys]].
  split; [done |]. split.
  - destruct (decide (length (mem (shared m)) ≤ length (mem (shared m'))))
      as [| Hgt]; [done |].
    destruct (lookup_lt_is_Some_2 (mem (shared m)) (length (mem (shared m'))))
      as [e He]; [lia |].
    destruct (Hle _ _ He) as (e' & He' & _).
    apply lookup_lt_Some in He'. lia.
  - intros k. unfold store.Exists.
    destruct (store.events (st (shared m)) !! k) eqn:Hk; [| done].
    intros _. destruct (Hkeys k) as [p' ->]; eauto.
Qed.

Lemma objects_and_keys_persist_witness :
  ∃ m m', run [Arrive evt_001; Handler 0; Handler 0; Handler 0] boot = Some m ∧
          run [StartWorker; LoopRecv; LoopProcess] m = Some m' ∧
          store.Exists (st (shared m')) "evt_001" = true.
Proof.
  destruct (run [Arrive evt_001; Handler 0; Handler 0; Handler 0] boot)
    as [m |] eqn:H1; [| by vm_compute in H1].
  destruct (run [StartWorker; LoopRecv; LoopProcess] m) as [m' |] eqn:H2.
  - exists m, m'. split; [done |]. split; [done |].
    destruct (objects_and_keys_persist
                [StartWorker; LoopRecv; LoopProcess] m m') as (_ & _ & H);
      [by eexists | done |].
    apply H. vm_compute in H1. by injection H1 as <-.
  - vm_compute in H1. injection H1 as <-. by vm_compute in H2.
Defined.

(** ** The loop and the drain *)

(** X10. One turn of the loop. In a reachable state with the loop at its
    [select] and a non-empty queue, the loop can take the first queued
    event and process it: it is back at the [select], the queue has lost
    its first event, the table is unchanged and the event's key has status
    [processed]. *)
Theorem loop_turn_processes_first (m : Machine) (p : ptr) (q : list ptr) :
  reachable m → loop m = LoopSelect → queue (wk (shared m)) = p :: q →
  ∃ m' e,
    mem (shared m) !! p = Some e ∧
    run [LoopRecv; LoopProcess] m = Some m' ∧
    loop m' = LoopSelect ∧
    queue (wk (shared m')) = q ∧
    st (shared m') = st (shared m) ∧
    status_of m' (EventID e) = Some (StatusProcessed, true).
Proof.
  intros Hreach Hl Hq. pose proof (reachable_Inv m Hreach) as HI.
  pose proof (Inv_shared _ HI) as Hok.
  destruct (ok_queue _ Hok p) as (e & He & [p0 Hp0]); [rewrite Hq; by left |].
  destruct (ok_table _ Hok _ _ Hp0) as (e0 & He0 & Hid0).
  destruct (MarkProcessed_sets_processed _ _ _ _ _ Hp0 He0) as [HM Hnew].
  set (w := {| queue := q; running := running (wk (shared m));
               done := done (wk (shared m)) |}).
  set (h := <[p0 := set_Status StatusProcessed e0]> (mem (shared m))) in *.
  set (m1 := {| shared := with_wk w (shared m); loop := LoopWork p;
                stopper := stopper m; handlers := handlers m |}).
  set (m2 := {| shared := with_mem h (with_wk w (shared m)); loop := LoopSelect;
                stopper := stopper m; handlers := handlers m |}).
  assert (step LoopRecv m = Some m1) as H1.
  { unfold step, loop_step, worker.receive. rewrite Hl, Hq. done. }
  assert (step LoopProcess m1 = Some m2) as H2.
  { unfold step, loop_step, worker.processEvent. simpl.
    rewrite He. simpl. rewrite HM. done. }
  exists m2, e. split; [done |]. split.
  { by rewrite (run_cons_Some _ _ _ _ H1), (run_cons_Some _ _ _ _ H2). }
  split; [done |]. split; [done |]. split; [done |].
  apply GetStatus_found. by exists p0, (set_Status StatusProcessed e0).
Qed.

Lemma loop_turn_processes_first_witness :
  ∃ m m', run [Arrive evt_001; Handler 0; Handler 0; Handler 0; StartWorker] boot
            = Some m ∧
          run [LoopRecv; LoopProcess] m = Some m' ∧
          queue (wk (shared m')) = [].
Proof.
  destruct (run [Arrive evt_001; Handler 0; Handler 0; Handler 0; StartWorker] boot)
    as [m |] eqn:Hrun; [| by vm_compute in Hrun].
  destruct (loop_turn_processes_first m 0 [])
    as (m' & e & _ & Hrun' & _ & Hq & _).
  - by eexists.
  - vm_compute in Hrun. by injection Hrun as <-.
  - vm_compute in Hrun. by injection Hrun as <-.
  - by exists m, m'.
Defined.

Lemma Stop_alone_drains_witness :
  ∃ m m', run [Arrive evt_001; Handler 0; Handler 0; Handler 0] boot = Some m ∧
          run (replicate 5 StopWorker) m = Some m' ∧
          stopper m' = StopReturned ∧
          queue (wk (shared m')) = [].
Proof.
  destruct sample_reachable as (m & Hrun & Hreach & Hq & _ & Hs).
  destruct (Stop_alone_drains m Hreach Hs) as (m' & Hrun' & Hret & Hempty & _).
  rewrite Hq in Hrun'. by exists m, m'.
Defined.

(** ** The handlers *)






(** ** Requests served one after the other *)

Lemma serve_cons (r : app.Request) (rs : list app.Request) (σ : Shared) :
  (serve (r :: rs) σ).1
    = (app.handleEvents r σ).1 :: (serve rs (app.handleEvents r σ).2).1.
Proof.
  cbn [serve]. destruct (app.handleEvents r σ) as [o σ1]. cbn [fst snd].
  by destruct (serve rs σ1).
Qed.

Lemma handleEvents_keeps_keys (r : app.Request) (σ : Shared) (k : string) :
  store.Exists (st σ) k = true →
  store.Exists (st (app.handleEvents r σ).2) k = true.
Proof.
  intros Hk. destruct r as [[| |] [req |]]; unfold app.handleEvents; simpl;
    try (by destruct (mapM _ _)); try done.
  destruct (decide (req_EventID req = EmptyString)); [done |].
  destruct (store.Exists (st σ) (req_EventID req)) eqn:Hex; [done |].
  unfold store.Save. rewrite alloc_fresh. simpl.
  assert (store.Exists
            {| store.events := <[req_EventID req := length (mem σ)]>
                                 (store.events (st σ)) |} k = true) as H.
  { unfold store.Exists in *. simpl. rewrite lookup_insert_ne; [done |].
    intros <-. by rewrite Hex in Hk. }
  destruct (worker.Enqueue _ _); exact H.
Qed.

Lemma handleEvents_accepted (req : EventRequest) (σ : Shared) :
  (app.handleEvents (app.POST req) σ).1 = app.Responded app.StatusAccepted →
  req_EventID req ≠ EmptyString ∧
  store.Exists (st (app.handleEvents (app.POST req) σ).2) (req_EventID req) = true.
Proof.
  rewrite handleEvents_POST.
  destruct (decide (req_EventID req = EmptyString)); [done |].
  destruct (store.Exists (st σ) (req_EventID req)); [done |].
  unfold store.Save. rewrite alloc_fresh. simpl.
  destruct (worker.Enqueue _ _); [| done]. intros _. split; [done |].
  unfold store.Exists. simpl. by rewrite lookup_insert_eq.
Qed.

Lemma serve_known_id_conflicts (rs : list app.Request) (σ : Shared) (j : nat)
    (req : EventRequest) :
  req_EventID req ≠ EmptyString →
  store.Exists (st σ) (req_EventID req) = true →
  rs !! j = Some (app.POST req) →
  (serve rs σ).1 !! j = Some (app.Responded app.StatusConflict).
Proof.
  intros Hne. revert σ j. induction rs as [| r rs IH]; intros σ j Hex Hj; [done |].
  rewrite serve_cons. destruct j as [| j]; simpl in *.
  - injection Hj as ->. rewrite handleEvents_POST, decide_False by done.
    by rewrite Hex.
  - apply IH; [| done]. by apply handleEvents_keeps_keys.
Qed.

(** X13. At most one acceptance per identifier when requests do not
    overlap: if the requests are served one after the other and a POST is
    answered 202, every later POST with the same identifier is answered
    409, whatever requests come in between. *)
Theorem serve_accepts_an_id_once (rs : list app.Request) (σ : Shared)
    (i j : nat) (ri rj : EventRequest) :
  i < j →
  rs !! i = Some (app.POST ri) → rs !! j = Some (app.POST rj) →
  req_EventID rj = req_EventID ri →
  (serve rs σ).1 !! i = Some (app.Responded app.StatusAccepted) →
  (serve rs σ).1 !! j = Some (app.Responded app.StatusConflict).
Proof.
  intros Hij Hi Hj Hid. revert σ i j Hij Hi Hj.
  induction rs as [| r rs IH]; intros σ i j Hij Hi Hj Hacc; [done |].
  rewrite serve_cons in *. destruct j as [| j]; [lia |].
  destruct i as [| i]; simpl in *.
  - injection Hi as ->. injection Hacc as Hacc.
    destruct (handleEvents_accepted ri σ Hacc) as [Hne Hex].
    apply (serve_known_id_conflicts rs _ j rj);
      [by rewrite Hid | by rewrite Hid | done].
  - apply (IH _ i); [lia | done | done | done].
Qed.

Lemma serve_accepts_an_id_once_witness :
  (serve [app.POST evt_001; app.POST evt_001] app.New).1 !! 1
    = Some (app.Responded app.StatusConflict).
Proof.
  apply (serve_accepts_an_id_once _ app.New 0 1 evt_001 evt_001);
    [lia | reflexivity | reflexivity | reflexivity | by vm_compute].
Defined.

(** X14. GET /ready in a reachable state answers 200 with [ready = true]
    exactly while the loop goroutine is alive (at its [select] or in
    [processEvent]), and 503 with [ready = false] before [Start] and after
    the loop has left; any other method is answered 405 with the plain
    text [Method not allowed] that [http.Error] writes. *)
Theorem handleReady_follows_the_loop (m : Machine) :
  reachable m →
  app.handleReady app.MethodGet (shared m) =
    match loop m with
    | LoopSelect | LoopWork _ =>
        (app.StatusOK,
         app.ReadyJSON {| ready_Status := "ready"; Ready := true |})
    | LoopIdle | LoopExit =>
        (app.StatusServiceUnavailable,
         app.ReadyJSON {| ready_Status := "not ready"; Ready := false |})
    end
  ∧ app.handleReady app.MethodPost (shared m)
      = (app.StatusMethodNotAllowed, app.ErrorText "Method not allowed")
  ∧ app.handleReady app.MethodOther (shared m)
      = (app.StatusMethodNotAllowed, app.ErrorText "Method not allowed").
Proof.
  intros Hreach. destruct (Inv_flag _ (reachable_Inv m Hreach)) as (Hflag & _).
  split; [| done]. unfold app.handleReady, worker.IsRunning. rewrite Hflag.
  by destruct (loop m).
Qed.

Lemma handleReady_follows_the_loop_witness :
  ∃ m, run [StartWorker] boot = Some m ∧
       app.handleReady app.MethodGet (shared m)
         = (app.StatusOK,
            app.ReadyJSON {| ready_Status := "ready"; Ready := true |}).
Proof.
  destruct (run [StartWorker] boot) as [m |] eqn:Hrun; [| by vm_compute in Hrun].
  exists m. split; [done |].
  destruct (handleReady_follows_the_loop m) as [H _]; [by eexists |].
  rewrite H. vm_compute in Hrun. by injection Hrun as <-.
Defined.

(** ** Configuration *)

(** X15. [LoadConfig], for every environment and every [Atoi]: the port
    and the environment name are never empty; a variable set to the empty
    string counts as not set; and the processing delay is 1000 unless
    PROCESSING_DELAY_MS is set to a non-empty string that [Atoi] accepts,
    in which case it is the parsed value. *)
Theorem LoadConfig_defaults (Atoi : string → option Z) (env : gmap string string) :
  app.Port (app.LoadConfig Atoi env) ≠ EmptyString ∧
  app.Env (app.LoadConfig Atoi env) ≠ EmptyString ∧
  (∀ key, app.LoadConfig Atoi (<[key := EmptyString]> env)
          = app.LoadConfig Atoi (delete key env)) ∧
  app.ProcessingDelayMs (app.LoadConfig Atoi env) =
    match env !! "PROCESSING_DELAY_MS" with
    | Some (String c s) => default 1000%Z (Atoi (String c s))
    | _ => 1000%Z
    end.
Proof.
  assert (∀ key k, app.Getenv (<[key := EmptyString]> env) k
                   = app.Getenv (delete key env) k) as Hget.
  { intros key k. unfold app.Getenv. destruct (decide (key = k)) as [-> | Hne].
    - by rewrite lookup_insert_eq, lookup_delete_eq.
    - by rewrite lookup_insert_ne, lookup_delete_ne. }
  split; [| split; [| split]].
  - unfold app.LoadConfig, app.getEnv. simpl. by case_decide.
  - unfold app.LoadConfig, app.getEnv. simpl. by case_decide.
  - intros key. unfold app.LoadConfig, app.getEnv, app.getEnvAsInt.
    by rewrite !Hget.
  - unfold app.LoadConfig, app.getEnvAsInt, app.Getenv. simpl.
    destruct (env !! "PROCESSING_DELAY_MS") as [[| c s] |]; simpl; [done | | done].
    by destruct (Atoi (String c s)).
Qed.

(** ** A submission seen through the list, and the loop on its own *)



(** When only the loop moves, it takes and processes the queued events one
    by one until the queue is empty. *)
Lemma loop_alone (q : list ptr) (m : Machine) :
  Inv m → loop m = LoopSelect → queue (wk (shared m)) = q →
  ∃ m', run (mjoin (replicate (length q) [LoopRecv; LoopProcess])) m = Some m' ∧
        loop m' = LoopSelect ∧
        queue (wk (shared m')) = [] ∧
        st (shared m') = st (shared m) ∧
        heap_le (mem (shared m)) (mem (shared m')) ∧
        ∀ p e, p ∈ q → mem (shared m) !! p = Some e →
          status_of m' (EventID e) = Some (StatusProcessed, true).
Proof.
  revert m. induction q as [| p q IH]; intros m HI Hl Hq.
  - exists m. split; [done |]. split; [done |]. split; [done |].
    split; [done |]. split; [apply heap_le_refl |].
    intros p e Hp. by apply elem_of_nil in Hp.
  - pose proof (Inv_shared _ HI) as Hok.
    destruct (ok_queue _ Hok p) as (ep & Hep & [p0 Hp0]); [rewrite Hq; by left |].
    destruct (ok_table _ Hok _ _ Hp0) as (e0 & He0 & Hid0).
    destruct (MarkProcessed_sets_processed _ _ _ _ _ Hp0 He0) as [HM Hnew].
    set (w := {| queue := q; running := running (wk (shared m));
                 done := done (wk (shared m)) |}).
    set (h := <[p0 := set_Status StatusProcessed e0]> (mem (shared m))) in *.
    set (m1 := {| shared := with_wk w (shared m); loop := LoopWork p;
                  stopper := stopper m; handlers := handlers m |}).
    set (m2 := {| shared := with_mem h (with_wk w (shared m)); loop := LoopSelect;
                  stopper := stopper m; handlers := handlers m |}).
    assert (step LoopRecv m = Some m1) as H1.
    { unfold step, loop_step, worker.receive. rewrite Hl, Hq. done. }
    assert (step LoopProcess m1 = Some m2) as H2.
    { unfold step, loop_step, worker.processEvent. simpl.
      rewrite Hep. simpl. rewrite HM. done. }
    assert (Inv m2) as HI2.
    { apply (step_Inv _ _ _ (proj1 (step_Inv _ _ _ HI H1)) H2). }
    destruct (IH m2 HI2 eq_refl eq_refl)
      as (m' & Hrun & Hsel & Hempty & Hst & Hle & Hproc).
    exists m'. split; [| split; [done | split; [done | split; [done | split]]]].
    + simpl.
      change (run (LoopRecv :: LoopProcess ::
                   mjoin (replicate (length q) [LoopRecv; LoopProcess])) m
              = Some m').
      by rewrite (run_cons_Some _ _ _ _ H1), (run_cons_Some _ _ _ _ H2).
    + eapply heap_le_trans; [| exact Hle]. by apply heap_le_set_processed.
    + intros p' e Hin He. apply elem_of_cons in Hin as [-> | Hin].
      * assert (e = ep) as -> by congruence.
        destruct (Hle p0 _ Hnew) as (e' & He' & _ & _ & Hs).
        apply GetStatus_found. exists p0, e'.
        rewrite Hst. split; [done |]. split; [done |]. by destruct Hs.
      * destruct (heap_le_set_processed _ _ _ He0 p' e He)
          as (e3 & He3 & Hid3 & _).
        rewrite <- Hid3. by apply (Hproc p' e3).
Qed.

(** X17. Eventual processing. From a reachable state with the loop at its
    [select], if only the loop moves for two steps per queued event, the
    queue is empty, the table is unchanged, and the key of every event that
    was queued has status [processed]. *)
Theorem loop_alone_processes_the_queue (m : Machine) :
  reachable m → loop m = LoopSelect →
  ∃ m', run (mjoin (replicate (length (queue (wk (shared m))))
                              [LoopRecv; LoopProcess])) m = Some m' ∧
        loop m' = LoopSelect ∧
        queue (wk (shared m')) = [] ∧
        st (shared m') = st (shared m) ∧
        ∀ p e, p ∈ queue (wk (shared m)) → mem (shared m) !! p = Some e →
          status_of m' (EventID e) = Some (StatusProcessed, true).
Proof.
  intros Hreach Hl.
  destruct (loop_alone _ m (reachable_Inv m Hreach) Hl eq_refl)
    as (m' & Hrun & Hsel & Hempty & Hst & _ & Hproc).
  by exists m'.
Qed.

Lemma loop_alone_processes_the_queue_witness :
  ∃ m m', run (submit_all 2 ++ [StartWorker]) boot = Some m ∧
          run [LoopRecv; LoopProcess; LoopRecv; LoopProcess] m = Some m' ∧
          queue (wk (shared m')) = [].
Proof.
  destruct (run (submit_all 2 ++ [StartWorker]) boot) as [m |] eqn:Hrun;
    [| by vm_compute in Hrun].
  destruct (loop_alone_processes_the_queue m) as (m' & Hrun' & _ & Hq & _).
  - by eexists.
  - vm_compute in Hrun. by injection Hrun as <-.
  - exists m, m'. split; [done |]. split; [| done].
    vm_compute in Hrun. injection Hrun as <-. exact Hrun'.
Defined.

(** * Accepted submissions under every interleaving *)















